(** * Claim-check codec: a shallow embedding of the two codecs, their
    plugins and the standalone codec server, with the properties of the
    specification stated over the embedding.

    Sources embedded here:
    - [src/temporal/claim_check/claim_check_codec.py]      (module [Relational])
    - [src/temporal_supervisor/claim_check/claim_check_codec.py] (module [Cache])
    - [src/common/db2_config.py]                           ([DB2Config], [create_claim_check_table])
    - [src/temporal/claim_check/claim_check_plugin.py],
      [src/temporal_supervisor/claim_check/claim_check_plugin.py] (module [Plugins])
    - [src/temporal/codec_server/codec_server.py]          (module [CodecServer]) *)

From Stdlib Require Import ZArith NArith String Ascii List Bool Lia.
From stdpp Require Import base option list gmap strings.

Local Open Scope string_scope.
Local Open Scope list_scope.
Local Open Scope Z_scope.

(** ** Python values used by the codecs *)

(** A Python [bytes] object is a sequence of octets: a Rocq [string].  A
    Python [str] is represented by its UTF-8 encoding, so [str.encode("utf-8")]
    is the identity and [bytes.decode("utf-8")] is a validity check. *)
Abbreviation bytes := string (only parsing).
Abbreviation str := string (only parsing).

(** The exceptions that the embedded code can raise or receive. *)
Inductive exn : Type :=
| ConnectionError      (* raised by [_get_connection] *)
| UnboundLocalError    (* reading a local that was never assigned *)
| TypeError            (* [len(None)], unexpected keyword argument *)
| ValueError           (* [int("abc")] *)
| UnicodeDecodeError   (* [bytes.decode] on ill-formed UTF-8 *)
| DecodeError          (* [Payload.FromString] on ill-formed input *)
| BadGzipFile          (* [gzip.decompress] on ill-formed input *)
| BinasciiError        (* [base64.b64decode] on ill-formed input *)
| DriverError.         (* any exception raised by the store client *)

Inductive result (A : Type) : Type :=
| Ok (a : A)
| Err (e : exn).
Arguments Ok {A} a.
Arguments Err {A} e.

Definition is_Ok {A} (r : result A) : bool :=
  match r with Ok _ => true | Err _ => false end.

(** *** State-and-exception monad

    A computation runs on a state [S]; an exception keeps the state reached
    when it was raised, as in Python. *)
Definition M (S A : Type) : Type := S -> result A * S.

Definition ret {S A} (a : A) : M S A := fun s => (Ok a, s).
Definition raise {S A} (e : exn) : M S A := fun s => (Err e, s).
Definition bind {S A B} (c : M S A) (k : A -> M S B) : M S B :=
  fun s => match c s with
           | (Ok a, s') => k a s'
           | (Err e, s') => (Err e, s')
           end.
(** [try c] runs [c] and hands its outcome to the handler: the body of a
    [try: ... except Exception as e: ...] statement. *)
Definition try {S A} (c : M S A) : M S (result A) :=
  fun s => let '(r, s') := c s in (Ok r, s').
Definition lift {S A} (r : result A) : M S A := fun s => (r, s).
Definition get {S} : M S S := fun s => (Ok s, s).
Definition modify {S} (f : S -> S) : M S unit := fun s => (Ok tt, f s).

(** [for x in xs: out.append(await f(x))], then [return out]: the loop of
    the [encode] and [decode] methods of both codecs. *)
Fixpoint for_append {S A B} (f : A -> M S B) (xs : list A) (out : list B)
  : M S (list B) :=
  match xs with
  | [] => fun s => (Ok out, s)
  | x :: rest =>
      fun s => match f x s with
               | (Ok y, s') => for_append f rest (out ++ [y]) s'
               | (Err e, s') => (Err e, s')
               end
  end.

Declare Scope py_scope.
Delimit Scope py_scope with py.
Notation "'let*' x ':=' c 'in' k" := (bind c (fun x => k))
  (at level 10, x binder, c at level 200, k at level 200) : py_scope.
Local Open Scope py_scope.

(** *** [bytes.decode("utf-8")]

    The strict UTF-8 decoder accepts exactly the well-formed byte sequences
    of the Unicode standard (no overlong forms, no surrogates, nothing above
    U+10FFFF).  The automaton below recognises them. *)
Inductive utf8_state : Type :=
| U_start            (* between code points *)
| U_tail1            (* one continuation byte 80..BF missing *)
| U_tail2            (* two continuation bytes missing *)
| U_tail2_E0         (* after E0: next byte in A0..BF *)
| U_tail2_ED         (* after ED: next byte in 80..9F *)
| U_tail3            (* three continuation bytes missing *)
| U_tail3_F0         (* after F0: next byte in 90..BF *)
| U_tail3_F4.        (* after F4: next byte in 80..8F *)

Definition between (lo hi b : N) : bool := ((lo <=? b) && (b <=? hi))%N.

Definition utf8_step (s : utf8_state) (b : N) : option utf8_state :=
  match s with
  | U_start =>
      if between 0x00 0x7F b then Some U_start
      else if between 0xC2 0xDF b then Some U_tail1
      else if between 0xE0 0xE0 b then Some U_tail2_E0
      else if between 0xE1 0xEC b then Some U_tail2
      else if between 0xED 0xED b then Some U_tail2_ED
      else if between 0xEE 0xEF b then Some U_tail2
      else if between 0xF0 0xF0 b then Some U_tail3_F0
      else if between 0xF1 0xF3 b then Some U_tail3
      else if between 0xF4 0xF4 b then Some U_tail3_F4
      else None
  | U_tail1 => if between 0x80 0xBF b then Some U_start else None
  | U_tail2 => if between 0x80 0xBF b then Some U_tail1 else None
  | U_tail2_E0 => if between 0xA0 0xBF b then Some U_tail1 else None
  | U_tail2_ED => if between 0x80 0x9F b then Some U_tail1 else None
  | U_tail3 => if between 0x80 0xBF b then Some U_tail2 else None
  | U_tail3_F0 => if between 0x90 0xBF b then Some U_tail2 else None
  | U_tail3_F4 => if between 0x80 0x8F b then Some U_tail2 else None
  end.

Fixpoint utf8_run (s : utf8_state) (b : bytes) : bool :=
  match b with
  | EmptyString => match s with U_start => true | _ => false end
  | String c rest =>
      match utf8_step s (N_of_ascii c) with
      | Some s' => utf8_run s' rest
      | None => false
      end
  end.

Definition bytes_decode (b : bytes) : result str :=
  if utf8_run U_start b then Ok b else Err UnicodeDecodeError.

(** [str.encode("utf-8")]: the identity on the representation. *)
Definition str_encode (s : str) : bytes := s.

(** [len(b)] *)
Definition len (b : bytes) : Z := Z.of_nat (String.length b).

(** [x or d] for a string [x] that may be [None]: the empty string and
    [None] are both falsy. *)
Definition str_or (x : option str) (d : str) : str :=
  match x with
  | Some (String c r) => String c r
  | _ => d
  end.

(** Truthiness of an [Optional[str]] argument. *)
Definition truthy (x : option str) : bool :=
  match x with
  | Some (String _ _) => true
  | _ => false
  end.

(** *** [str(uuid.uuid4())]

    A UUID is a 128-bit integer; its text form is 32 lowercase hexadecimal
    digits cut 8-4-4-4-12 by hyphens. *)
Definition hex_digit (n : N) : ascii :=
  match n with
  | 0 => "0" | 1 => "1" | 2 => "2" | 3 => "3" | 4 => "4" | 5 => "5"
  | 6 => "6" | 7 => "7" | 8 => "8" | 9 => "9" | 10 => "a" | 11 => "b"
  | 12 => "c" | 13 => "d" | 14 => "e" | _ => "f"
  end%N%char.

(** ['%0<width>x' % n], most significant digit first. *)
Fixpoint hex_fixed (width : nat) (n : N) : string :=
  match width with
  | O => EmptyString
  | S w => String (hex_digit (N.land (N.shiftr n (4 * N.of_nat w)) 15)) (hex_fixed w n)
  end.

Definition uuid_str (u : N) : str :=
  let hex := hex_fixed 32 (u mod 2 ^ 128)%N in
  substring 0 8 hex +:+ "-" +:+ substring 8 4 hex +:+ "-" +:+ substring 12 4 hex
    +:+ "-" +:+ substring 16 4 hex +:+ "-" +:+ substring 20 12 hex.

(** Text made of ASCII characters only. *)
Definition is_ascii (s : string) : Prop :=
  forall c, In c (list_ascii_of_string s) -> (N_of_ascii c < 128)%N.

(** ** The message unit of the transport *)

(** [temporalio.api.common.v1.Payload]: a map from string keys to binary
    values, and a binary body. *)
Record Payload : Type := mkPayload {
  metadata : gmap string string;
  data : bytes
}.

Definition CODEC_KEY : str := "temporal.io/claim-check-codec".
Definition ENCODING_KEY : str := "encoding".

(** [p.metadata.get(key, b)] with [b] the empty bytes object *)
Definition metadata_get (p : Payload) (key : str) : bytes :=
  default EmptyString (metadata p !! key).

(** The reference token that both codecs build at the end of
    [encode_payload]. *)
Definition reference_token (codec_version : bytes) (id : str) : Payload :=
  {| metadata := <[ENCODING_KEY := "claim-checked"]>
                   (<[CODEC_KEY := codec_version]> ∅);
     data := str_encode id |}.

(** ** The cache-backed codec
    ([src/temporal_supervisor/claim_check/claim_check_codec.py]) *)
Module Cache.

(** *** The Redis server and the rest of the environment *)

(** A key of the Redis keyspace: its value and, when the key was written
    with an expiry, the instant at which it expires. *)
Record Entry : Type := mkEntry {
  value : bytes;
  expire_at : option Z
}.

Record World : Type := mkWorld {
  kv : gmap string Entry;   (* the keyspace *)
  now : Z;                  (* wall clock, in seconds *)
  faults : list bool;       (* fate of the coming client calls: [true] raises *)
  draws : nat;              (* UUIDs drawn so far *)
  entropy : nat -> N        (* the random source of [uuid.uuid4] *)
}.

Definition set_kv (f : gmap string Entry -> gmap string Entry) (w : World) : World :=
  mkWorld (f (kv w)) (now w) (faults w) (draws w) (entropy w).
Definition set_faults (l : list bool) (w : World) : World :=
  mkWorld (kv w) (now w) l (draws w) (entropy w).
Definition set_draws (n : nat) (w : World) : World :=
  mkWorld (kv w) (now w) (faults w) n (entropy w).
(** Time passing: [d] seconds elapse. *)
Definition elapse (d : Z) (w : World) : World :=
  mkWorld (kv w) (now w + d) (faults w) (draws w) (entropy w).

(** One round trip to the server: it raises when the environment says so;
    once the list of fates is used up every call succeeds. *)
Definition client_call : M World unit :=
  fun w =>
    match faults w with
    | [] => (Ok tt, w)
    | b :: rest =>
        if b then (Err DriverError, set_faults rest w)
        else (Ok tt, set_faults rest w)
    end.

(** What a reader sees under a key at the current instant: an entry whose
    expiry has passed is gone. *)
Definition live (w : World) (key : str) : option bytes :=
  match kv w !! key with
  | Some e =>
      match expire_at e with
      | Some t => if t <=? now w then None else Some (value e)
      | None => Some (value e)
      end
  | None => None
  end.

(** [await redis_client.get(key)] *)
Definition redis_get (key : str) : M World (option bytes) :=
  let* _ := client_call in
  let* w := get in
  ret (live w key).

(** [await redis_client.set(key, value, ex=ex)]; [ex=None] when the
    argument is not passed: the key is stored without expiry. *)
Definition redis_set (key : str) (v : bytes) (ex : option Z) : M World unit :=
  let* _ := client_call in
  let* w := get in
  modify (set_kv (fun m => <[key := mkEntry v (fmap (fun s => now w + s) ex)]> m)).

(** [str(uuid.uuid4())] *)
Definition uuid4_str : M World str :=
  fun w => (Ok (uuid_str (entropy w (draws w))), set_draws (S (draws w)) w).

(** *** The codec *)

Record ClaimCheckCodec : Type := mkCodec {
  redis_host : str;
  redis_port : Z;
  enable_compression : bool;
  compression_threshold : Z
}.

(** [ClaimCheckCodec(redis_host, redis_port, enable_compression,
    compression_threshold)]: the Redis client object is built, no
    connection is opened. *)
Definition __init__ (redis_host : str) (redis_port : Z)
  (enable_compression : bool) (compression_threshold : Z) : ClaimCheckCodec :=
  mkCodec redis_host redis_port enable_compression compression_threshold.

Section WithLibraries.

(** The protobuf and gzip libraries. [gzip.compress] writes the current
    time into the header, hence its first argument. *)
Variable SerializeToString : Payload -> bytes.
Variable FromString : bytes -> option Payload.
Variable gzip_compress : Z -> bytes -> bytes.
Variable gzip_decompress : bytes -> option bytes.

Definition should_compress (self : ClaimCheckCodec) (original_size : Z) : bool :=
  enable_compression self && (compression_threshold self <=? original_size).

Definition encode_payload (self : ClaimCheckCodec) (payload : Payload)
  : M World Payload :=
  let* id := uuid4_str in
  let value := SerializeToString payload in
  let original_size := len value in
  let* '(value, codec_version) :=
    (if should_compress self original_size
     then let* w := get in ret (gzip_compress (now w) value, "v1c")
     else ret (value, "v1")) in
  let* _ := redis_set id value None in
  ret (reference_token codec_version id).

Definition encode (self : ClaimCheckCodec) (payloads : list Payload)
  : M World (list Payload) :=
  for_append (encode_payload self) payloads [].

(** [codec_version not in ["v1", "v1c"]] *)
Definition accepted (codec_version : str) : bool :=
  bool_decide (codec_version = "v1") || bool_decide (codec_version = "v1c").

(** The body of the [for] loop of [decode]: what is appended to [out] for
    the payload [p]. [len(value)] raises [TypeError] when the key is
    absent and [get] returned [None]. *)
Definition decode_payload (self : ClaimCheckCodec) (p : Payload)
  : M World Payload :=
  let* codec_version := lift (bytes_decode (metadata_get p CODEC_KEY)) in
  if negb (accepted codec_version) then ret p
  else
    let* redis_id := lift (bytes_decode (data p)) in
    let* value := redis_get redis_id in
    let* value :=
      (if bool_decide (codec_version = "v1c") then
         match value with
         | None => raise TypeError
         | Some v =>
             match gzip_decompress v with
             | Some v' => ret v'
             | None => raise BadGzipFile
             end
         end
       else
         match value with
         | None => raise TypeError
         | Some v => ret v
         end) in
    match FromString value with
    | Some new_payload => ret new_payload
    | None => raise DecodeError
    end.

Definition decode (self : ClaimCheckCodec) (payloads : list Payload)
  : M World (list Payload) :=
  for_append (decode_payload self) payloads [].

(** The identifier that [encode_payload] draws when started in [w], the
    bytes it writes to the store and the version tag it puts on the token. *)
Definition next_id (w : World) : str :=
  uuid_str (entropy w (draws w)).

Definition stored_form (self : ClaimCheckCodec) (p : Payload) (w : World) : bytes :=
  if should_compress self (len (SerializeToString p))
  then gzip_compress (now w) (SerializeToString p)
  else SerializeToString p.

Definition version_tag (self : ClaimCheckCodec) (p : Payload) : bytes :=
  if should_compress self (len (SerializeToString p)) then "v1c" else "v1".

End WithLibraries.
(** The identifiers drawn by [n] successive calls of [uuid.uuid4] from the
    world [w] on. *)
Definition next_ids (w : World) (n : nat) : list str :=
  map (fun i => uuid_str (entropy w (draws w + i)%nat)) (seq 0 n).

End Cache.

(** ** Process environment and the DB2 configuration
    ([src/common/db2_config.py]) *)

(** [os.environ]: the variables that are set. *)
Definition Env : Type := string -> option string.

(** [os.getenv(key, default)] *)
Definition getenv (env : Env) (key default_value : str) : str :=
  default default_value (env key).

Record DB2Config : Type := mkDB2Config {
  hostname : str;
  port : str;
  database : str;
  username : str;
  password : str;
  protocol : str
}.

(** The field defaults of the dataclass. *)
Definition DB2Config_defaults : DB2Config :=
  mkDB2Config "localhost" "50000" "testdb" "db2inst1" "password" "TCPIP".

Definition __post_init__ (env : Env) (self : DB2Config) : DB2Config :=
  {| hostname := getenv env "DB2_HOST" (hostname self);
     port := getenv env "DB2_PORT" (port self);
     database := getenv env "DB2_DATABASE" (database self);
     username := getenv env "DB2_USERNAME" (username self);
     password := getenv env "DB2_PASSWORD" (password self);
     protocol := getenv env "DB2_PROTOCOL" (protocol self) |}.

(** [DB2Config()] *)
Definition DB2Config_new (env : Env) : DB2Config :=
  __post_init__ env DB2Config_defaults.

Definition get_connection_string (self : DB2Config) : str :=
  "DATABASE=" +:+ database self +:+ ";"
  +:+ "HOSTNAME=" +:+ hostname self +:+ ";"
  +:+ "PORT=" +:+ port self +:+ ";"
  +:+ "PROTOCOL=" +:+ protocol self +:+ ";"
  +:+ "UID=" +:+ username self +:+ ";"
  +:+ "PWD=" +:+ password self +:+ ";".

(** ** Calls with keyword arguments

    The values passed by keyword in the embedded code, and the check a call
    makes before the body runs: a keyword that names no parameter raises
    [TypeError]. *)
Inductive pyval : Type :=
| VStr (s : str)
| VInt (z : Z)
| VBool (b : bool)
| VConfig (c : DB2Config).

Definition kwargs : Type := list (str * pyval).

Definition kwarg (name : str) (kw : kwargs) : option pyval :=
  snd <$> find (fun x => bool_decide (fst x = name)) kw.

Definition check_keywords (params : list str) (kw : kwargs) : result unit :=
  if forallb (fun x => bool_decide (fst x ∈ params)) kw
  then Ok tt else Err TypeError.

(** ** The relational codec
    ([src/temporal/claim_check/claim_check_codec.py]) *)
Module Relational.

(** *** The DB2 server and the rest of the environment *)

(** A row of [claim_check_payloads]. [workflow_run_id] is the only
    nullable column the codec writes. *)
Record Row : Type := mkRow {
  id : str;
  payload_data : str;
  workflow_id : str;
  workflow_run_id : option str;
  created_at : Z;
  expires_at : Z
}.

(** A connection handle returned by [ibm_db.connect]. *)
Inductive IBM_DBConnection : Type :=
| Connection (conn_str : str).

(** The calls made to the [ibm_db] driver. *)
Inductive op : Type :=
| OpConnect | OpExecImmediate | OpPrepare | OpBindParam | OpExecute
| OpFetchTuple | OpNumRows | OpCommit | OpRollback | OpClose.

(** The mutable fields of one codec object, the database that its
    configuration names and the environment the object runs in.  A state
    belongs to one object: the connection it holds was opened with that
    object's configuration, and [table] is the table [claim_check_payloads]
    of the database it reaches.  Statements run in a transaction: what a
    statement changes is in [txn] until [commit] makes it the table or
    [rollback] drops it. *)
Record State : Type := mkState {
  _connection : option IBM_DBConnection;   (* [self._connection] *)
  _initialized : bool;                     (* [self._initialized] *)
  table : option (list Row);   (* committed rows; [None]: the table does not exist *)
  txn : option (list Row);     (* rows as changed by the open transaction *)
  now : Z;                     (* wall clock, in seconds *)
  faults : list bool;          (* fate of the coming driver calls: [true] raises *)
  trace : list op;             (* driver calls issued so far *)
  draws : nat;                 (* UUIDs drawn so far *)
  entropy : nat -> N;          (* the random source of [uuid.uuid4] *)
  workflow_info : option (str * str);
    (* [(info.workflow_id, info.run_id)] when the caller runs inside a workflow *)
  ticks : list Z
    (* the time that passes between one reading of the clock and the next *)
}.

Definition set_connection (c : option IBM_DBConnection) (s : State) : State :=
  mkState c (_initialized s) (table s) (txn s) (now s) (faults s) (trace s)
          (draws s) (entropy s) (workflow_info s) (ticks s).
Definition set_initialized (b : bool) (s : State) : State :=
  mkState (_connection s) b (table s) (txn s) (now s) (faults s) (trace s)
          (draws s) (entropy s) (workflow_info s) (ticks s).
Definition set_table (t : option (list Row)) (s : State) : State :=
  mkState (_connection s) (_initialized s) t (txn s) (now s) (faults s) (trace s)
          (draws s) (entropy s) (workflow_info s) (ticks s).
Definition set_txn (t : option (list Row)) (s : State) : State :=
  mkState (_connection s) (_initialized s) (table s) t (now s) (faults s) (trace s)
          (draws s) (entropy s) (workflow_info s) (ticks s).
Definition set_faults (l : list bool) (s : State) : State :=
  mkState (_connection s) (_initialized s) (table s) (txn s) (now s) l (trace s)
          (draws s) (entropy s) (workflow_info s) (ticks s).
Definition set_trace (l : list op) (s : State) : State :=
  mkState (_connection s) (_initialized s) (table s) (txn s) (now s) (faults s) l
          (draws s) (entropy s) (workflow_info s) (ticks s).
Definition set_draws (n : nat) (s : State) : State :=
  mkState (_connection s) (_initialized s) (table s) (txn s) (now s) (faults s)
          (trace s) n (entropy s) (workflow_info s) (ticks s).
Definition set_ticks (l : list Z) (s : State) : State :=
  mkState (_connection s) (_initialized s) (table s) (txn s) (now s) (faults s)
          (trace s) (draws s) (entropy s) (workflow_info s) l.

(** The wall clock moves on: before [datetime.utcnow()] is read again the
    next duration of [ticks] has passed; once the list is used up the clock
    stands still. *)
Definition advance (s : State) : State :=
  match ticks s with
  | [] => s
  | d :: rest =>
      mkState (_connection s) (_initialized s) (table s) (txn s) (now s + d)
              (faults s) (trace s) (draws s) (entropy s) (workflow_info s) rest
  end.

Definition time_passes : M State unit := modify advance.

(** The rows a statement on the codec's connection sees. *)
Definition view (s : State) : option (list Row) :=
  match txn s with
  | Some rows => Some rows
  | None => table s
  end.

Definition visible (s : State) : list Row := default [] (view s).

(** One call to the driver: it is recorded, and raises when the
    environment says so; once the list of fates is used up every call
    succeeds. *)
Definition driver_call (o : op) : M State unit :=
  fun s =>
    let s' := set_trace (trace s ++ [o]) s in
    match faults s with
    | [] => (Ok tt, s')
    | b :: rest =>
        if b then (Err DriverError, set_faults rest s')
        else (Ok tt, set_faults rest s')
    end.

(** [ibm_db.connect] with the connection string and empty credentials *)
Definition ibm_db_connect (conn_str : str) : M State IBM_DBConnection :=
  let* _ := driver_call OpConnect in ret (Connection conn_str).

(** [ibm_db.prepare] followed by [n] calls of [ibm_db.bind_param] *)
Fixpoint bind_params (n : nat) : M State unit :=
  match n with
  | O => ret tt
  | S k => let* _ := driver_call OpBindParam in bind_params k
  end.
Definition ibm_db_prepare (nparams : nat) : M State unit :=
  let* _ := driver_call OpPrepare in bind_params nparams.

(** [ibm_db.execute] of [INSERT INTO claim_check_payloads ... VALUES (?, ?, ?, ?, ?)]:
    refused when the table is missing or the primary key is taken. *)
Definition execute_insert (r : Row) : M State unit :=
  let* _ := driver_call OpExecute in
  let* s := get in
  match view s with
  | None => raise DriverError
  | Some rows =>
      if existsb (fun x => bool_decide (id x = id r)) rows then raise DriverError
      else modify (set_txn (Some (rows ++ [r])))
  end.

(** [ibm_db.execute] of [SELECT payload_data FROM claim_check_payloads WHERE id = ?]
    then [ibm_db.fetch_tuple]: the first row of the result, if any. *)
Definition execute_select (payload_id : str) : M State (option Row) :=
  let* _ := driver_call OpExecute in
  let* s := get in
  match view s with
  | None => raise DriverError
  | Some rows =>
      let* _ := driver_call OpFetchTuple in
      ret (find (fun x => bool_decide (id x = payload_id)) rows)
  end.

(** [ibm_db.execute] of [DELETE FROM claim_check_payloads WHERE <cond>] then
    [ibm_db.num_rows]. *)
Definition execute_delete (cond : Row -> bool) : M State nat :=
  let* _ := driver_call OpExecute in
  let* s := get in
  match view s with
  | None => raise DriverError
  | Some rows =>
      let* _ := modify (set_txn (Some (List.filter (fun x => negb (cond x)) rows))) in
      let* _ := driver_call OpNumRows in
      ret (List.length (List.filter cond rows))
  end.

(** [ibm_db.commit(conn)] *)
Definition ibm_db_commit (conn : IBM_DBConnection) : M State unit :=
  let* _ := driver_call OpCommit in
  modify (fun s => match txn s with
                   | Some rows => set_txn None (set_table (Some rows) s)
                   | None => s
                   end).

(** [ibm_db.rollback(conn)] *)
Definition ibm_db_rollback (conn : IBM_DBConnection) : M State unit :=
  let* _ := driver_call OpRollback in
  modify (set_txn None).

(** [str(uuid.uuid4())] *)
Definition uuid4_str : M State str :=
  fun s => (Ok (uuid_str (entropy s (draws s))), set_draws (S (draws s)) s).

(** [datetime.utcnow() + timedelta(hours=ttl_hours)]: a [timedelta] holds at
    most 999999999 days and a [datetime] lies in the years 1 to 9999;
    outside, the constructor or the sum raises [OverflowError].  The bounds
    of [datetime] in seconds since 1970-01-01, and the condition under which
    the expiry of a row can be formed. *)
Definition timedelta_max_days : Z := 999999999.
Definition datetime_min : Z := -62135596800.   (* 0001-01-01 00:00:00 *)
Definition datetime_max : Z := 253402300799.   (* 9999-12-31 23:59:59 *)

Definition expiry_representable (now ttl_hours : Z) : bool :=
  (- timedelta_max_days <=? ttl_hours / 24)
  && (ttl_hours / 24 <=? timedelta_max_days)
  && (datetime_min <=? now + 3600 * ttl_hours)
  && (now + 3600 * ttl_hours <=? datetime_max).

(** [create_claim_check_table(config)] of [db2_config.py]: it works on a
    connection of its own; the table and its indexes exist once its
    transaction commits.  The codec always passes its configuration. *)
Definition create_claim_check_table (config : DB2Config) : M State unit :=
  let conn_str := get_connection_string config in
  let* r := try (ibm_db_connect conn_str) in
  match r with
  | Err e => raise e            (* [conn] is [None]: no rollback, no close *)
  | Ok conn =>
      let* r := try (
        let* _ := driver_call OpExecImmediate in        (* CREATE TABLE IF NOT EXISTS *)
        let* _ := try (driver_call OpExecImmediate) in  (* index on the owner pair *)
        let* _ := try (driver_call OpExecImmediate) in  (* index on expires_at *)
        let* _ := driver_call OpCommit in
        modify (fun s => match table s with
                         | None => set_table (Some []) s
                         | Some _ => s
                         end)) in
      match r with
      | Ok _ => driver_call OpClose                      (* finally *)
      | Err e =>
          let* r2 := try (driver_call OpRollback) in
          let* _ := driver_call OpClose in               (* finally *)
          raise (match r2 with Err e2 => e2 | Ok _ => e end)
      end
  end.

(** *** The codec *)

Record ClaimCheckCodec : Type := mkCodec {
  config : DB2Config;
  ttl_hours : Z
}.

(** A call of the class with keyword arguments, that is
    [__init__(self, config=None, ttl_hours=24)]: [config or DB2Config()]
    reads the environment; no connection is opened. *)
Definition __init__ (env : Env) (kw : kwargs) : result ClaimCheckCodec :=
  match check_keywords ["config"; "ttl_hours"] kw with
  | Err e => Err e
  | Ok _ =>
      Ok {| config := match kwarg "config" kw with
                      | Some (VConfig c) => c
                      | _ => DB2Config_new env
                      end;
            ttl_hours := match kwarg "ttl_hours" kw with
                         | Some (VInt h) => h
                         | _ => 24
                         end |}
  end.

Definition _get_connection (self : ClaimCheckCodec) : M State IBM_DBConnection :=
  let* s := get in
  match _connection s with
  | Some conn => ret conn
  | None =>
      let* r := try (
        let conn_str := get_connection_string (config self) in
        let* conn := ibm_db_connect conn_str in
        let* _ := modify (set_connection (Some conn)) in
        let* s := get in
        let* _ :=
          (if negb (_initialized s)
           then let* _ := create_claim_check_table (config self) in
                modify (set_initialized true)
           else ret tt) in
        ret conn) in
      match r with
      | Ok conn => ret conn
      | Err e => raise ConnectionError
      end
  end.

Section WithLibraries.

(** The protobuf and base64 libraries. [b64encode_str b] is
    [base64.b64encode(b).decode('utf-8')]: base64 text is ASCII, so the
    decoding step cannot fail. *)
Variable SerializeToString : Payload -> bytes.
Variable FromString : bytes -> option Payload.
Variable b64encode_str : bytes -> str.
Variable b64decode : str -> option bytes.

(** The row that [encode_payload] binds to the [INSERT] statement
    (lines 110-124 and 139-143): the owner pair comes from the workflow
    context, the expiry from the clock. [created_at] is filled by the
    server ([DEFAULT CURRENT TIMESTAMP]).  The expiry is the sum in [Z];
    the source forms it with [datetime] arithmetic, which raises
    [OverflowError] before the store is contacted when
    [expiry_representable] fails: a statement that says that [encode]
    returns assumes [expiry_representable]. *)
Definition new_row (self : ClaimCheckCodec) (payload_id : str)
  (payload_bytes : bytes) (s : State) : Row :=
  let workflow_id := fst <$> workflow_info s in
  let workflow_run_id := snd <$> workflow_info s in
  let expires_at := now s + 3600 * ttl_hours self in
  let encoded_data := b64encode_str payload_bytes in
  {| id := payload_id;
     payload_data := encoded_data;
     workflow_id := str_or workflow_id "unknown";
     workflow_run_id := Some (str_or workflow_run_id EmptyString);
     created_at := now s;
     expires_at := expires_at |}.

(** The statements of the [try] block of [encode_payload] that follow
    [_get_connection] (lines 133-145). *)
Definition insert_and_commit (conn : IBM_DBConnection) (r : Row) : M State unit :=
  let* _ := ibm_db_prepare 5 in
  let* _ := execute_insert r in
  ibm_db_commit conn.

Definition encode_payload (self : ClaimCheckCodec) (payload : Payload)
  : M State Payload :=
  let* payload_id := uuid4_str in
  let payload_bytes := SerializeToString payload in
  let* s := get in
  let* r := try (_get_connection self) in
  match r with
  | Err e => raise UnboundLocalError   (* [if conn:] with [conn] never assigned *)
  | Ok conn =>
      let* r := try (insert_and_commit conn (new_row self payload_id payload_bytes s)) in
      match r with
      | Err e => let* _ := ibm_db_rollback conn in raise e
      | Ok _ => ret (reference_token "v1" payload_id)
      end
  end.

(** The loop of [encode].  Every [encode_payload] reads the clock afresh:
    between one payload and the next the clock moves on. *)
Definition encode (self : ClaimCheckCodec) (payloads : list Payload)
  : M State (list Payload) :=
  for_append (fun p => let* encoded := encode_payload self p in
                       let* _ := time_passes in
                       ret encoded) payloads [].

(** The [try] block of [decode]: [Some] of the stored payload, or [None]
    when no row has the identifier. *)
Definition fetch_payload (self : ClaimCheckCodec) (payload_id : str)
  : M State (option Payload) :=
  let* conn := _get_connection self in
  let* _ := ibm_db_prepare 1 in
  let* result := execute_select payload_id in
  match result with
  | Some row =>
      match b64decode (payload_data row) with
      | None => raise BinasciiError
      | Some payload_bytes =>
          match FromString payload_bytes with
          | None => raise DecodeError
          | Some new_payload => ret (Some new_payload)
          end
      end
  | None => ret None
  end.

(** The body of the [for] loop of [decode]: what is appended to [out] for
    the payload [p]. *)
Definition decode_payload (self : ClaimCheckCodec) (p : Payload)
  : M State Payload :=
  let* codec_version := lift (bytes_decode (metadata_get p CODEC_KEY)) in
  if negb (bool_decide (codec_version = "v1")) then ret p
  else
    let* payload_id := lift (bytes_decode (data p)) in
    let* r := try (fetch_payload self payload_id) in
    match r with
    | Ok (Some new_payload) => ret new_payload
    | Ok None => ret p          (* not found: the original payload *)
    | Err e => ret p            (* any error: the original payload *)
    end.

Definition decode (self : ClaimCheckCodec) (payloads : list Payload)
  : M State (list Payload) :=
  for_append (decode_payload self) payloads [].

End WithLibraries.

(** The committed rows, whether or not the table exists yet. *)
Definition committed (s : State) : list Row := default [] (table s).

(** [steady s s']: between [s] and [s'] only driver calls were issued; the
    database and the codec object are as they were. *)
Definition steady (s s' : State) : Prop :=
  table s' = table s /\ txn s' = txn s
  /\ _connection s' = _connection s /\ _initialized s' = _initialized s
  /\ now s' = now s /\ draws s' = draws s /\ entropy s' = entropy s
  /\ workflow_info s' = workflow_info s
  /\ (faults s = [] -> faults s' = [])
  /\ (exists ops, trace s' = trace s ++ ops).

(** [settled s s']: between [s] and [s'] the codec may have connected and
    created the table; no row was touched. *)
Definition settled (s s' : State) : Prop :=
  committed s' = committed s /\ visible s' = visible s /\ txn s' = txn s
  /\ (forall rows, view s = Some rows -> view s' = Some rows)
  /\ (forall c, _connection s = Some c -> _connection s' = Some c)
  /\ now s' = now s /\ draws s' = draws s /\ entropy s' = entropy s
  /\ workflow_info s' = workflow_info s
  /\ (faults s = [] -> faults s' = [])
  /\ (exists ops, trace s' = trace s ++ ops).


(** A computation that keeps a relation between the state it starts in and
    the state it ends in, whatever its outcome. *)
Definition keeps {A} (R : State -> State -> Prop) (c : M State A) : Prop :=
  forall s r s', c s = (r, s') -> R s s'.

(** The [WHERE] clauses of the two cleanup statements.  A [NULL] run id
    equals nothing. *)
Definition where_workflow (workflow_id : str) (r : Row) : bool :=
  bool_decide (Relational.workflow_id r = workflow_id).

Definition where_workflow_and_run (workflow_id workflow_run_id : str) (r : Row)
  : bool :=
  bool_decide (Relational.workflow_id r = workflow_id)
  && match Relational.workflow_run_id r with
     | Some x => bool_decide (x = workflow_run_id)
     | None => false
     end.

(** The clause that [cleanup_workflow_payloads] runs for its arguments. *)
Definition cleanup_condition (workflow_id : str) (workflow_run_id : option str)
  : Row -> bool :=
  if truthy workflow_run_id
  then where_workflow_and_run workflow_id (default EmptyString workflow_run_id)
  else where_workflow workflow_id.

Definition cleanup_workflow_payloads (self : ClaimCheckCodec)
  (workflow_id : str) (workflow_run_id : option str) : M State unit :=
  let* r := try (_get_connection self) in
  match r with
  | Err e => raise UnboundLocalError   (* [if conn:] with [conn] never assigned *)
  | Ok conn =>
      let* r := try (
        let* cond :=
          (if truthy workflow_run_id
           then let* _ := ibm_db_prepare 2 in
                ret (where_workflow_and_run workflow_id (default EmptyString workflow_run_id))
           else let* _ := ibm_db_prepare 1 in
                ret (where_workflow workflow_id)) in
        let* deleted_count := execute_delete cond in
        ibm_db_commit conn) in
      match r with
      | Err e => ibm_db_rollback conn   (* logged, not raised again *)
      | Ok _ => ret tt
      end
  end.

(** The [WHERE] clause of the expiry sweep. *)
Definition where_expired (now_str : Z) (r : Row) : bool :=
  expires_at r <? now_str.

Definition cleanup_expired_payloads (self : ClaimCheckCodec) : M State unit :=
  let* r := try (_get_connection self) in
  match r with
  | Err e => raise UnboundLocalError   (* [if conn:] with [conn] never assigned *)
  | Ok conn =>
      let* r := try (
        let* s := get in
        let now_str := now s in
        let* _ := ibm_db_prepare 1 in
        let* deleted_count := execute_delete (where_expired now_str) in
        ibm_db_commit conn) in
      match r with
      | Err e => ibm_db_rollback conn   (* logged, not raised again *)
      | Ok _ => ret tt
      end
  end.

(** [close]: every exception is logged and dropped; the field is reset only
    after [ibm_db.close] returned.  The server drops the open transaction
    of a connection that closes. *)
Definition close (self : ClaimCheckCodec) : M State unit :=
  let* _ := try (
    let* s := get in
    match _connection s with
    | Some conn =>
        let* _ := driver_call OpClose in
        modify (fun s => set_connection None (set_txn None s))
    | None => ret tt
    end) in
  ret tt.

(** Time passing: [d] seconds elapse. *)
Definition elapse (d : Z) (s : State) : State :=
  mkState (_connection s) (_initialized s) (table s) (txn s) (now s + d)
          (faults s) (trace s) (draws s) (entropy s) (workflow_info s) (ticks s).

(** [codec_kept s s']: the fields of the codec object are as they were. *)
Definition codec_kept (s s' : State) : Prop :=
  _connection s' = _connection s /\ _initialized s' = _initialized s.

(** [env_kept s s']: the clock, the random source and the workflow context
    are as they were. *)
Definition env_kept (s s' : State) : Prop :=
  now s' = now s /\ draws s' = draws s /\ entropy s' = entropy s
  /\ workflow_info s' = workflow_info s /\ ticks s' = ticks s.

(** The clock values that [encode] reads for the [n] payloads of a batch,
    from the clock value [now] on with the durations [ticks] to come. *)
Fixpoint readings (now : Z) (ticks : list Z) (n : nat) : list Z :=
  match n with
  | O => []
  | S k => now :: match ticks with
                  | [] => readings now [] k
                  | d :: rest => readings (now + d) rest k
                  end
  end.

Definition next_readings (s : State) (n : nat) : list Z :=
  readings (now s) (ticks s) n.

(** A second codec object in front of the same database, as [__init__]
    leaves it: without a connection, not initialized, and with no
    transaction open.  It reaches the same database when its configuration
    gives the same connection string. *)
Definition constructed (s : State) : State :=
  set_connection None (set_initialized false (set_txn None s)).

(** The identifiers drawn by [n] successive calls of [uuid.uuid4] from the
    state [s] on. *)
Definition next_ids (s : State) (n : nat) : list str :=
  map (fun i => uuid_str (entropy s (draws s + i)%nat)) (seq 0 n).

End Relational.

(** ** The workflow's use of the codec
    ([src/temporal/workflows/supervisor_workflow.py]) *)
Module Workflow.

(** [_initialize_claim_check_codec]: the codec is built with no argument;
    if the constructor raises the field is [None]. *)
Definition _initialize_claim_check_codec (env : Env)
  : option Relational.ClaimCheckCodec :=
  match Relational.__init__ env [] with
  | Ok codec => Some codec
  | Err _ => None
  end.

(** [_cleanup], for the codec part: [claim_check_codec] is the field of the
    workflow, [wf_id] its workflow id and [run_id] the value of
    [workflow.info().run_id] of the running workflow. *)
Definition _cleanup (claim_check_codec : option Relational.ClaimCheckCodec)
  (wf_id run_id : str) : M Relational.State unit :=
  match claim_check_codec with
  | Some codec =>
      let* _ := try (Relational.cleanup_workflow_payloads codec wf_id (Some run_id)) in
      let* _ := try (Relational.close codec) in
      ret tt
  | None => ret tt
  end.

End Workflow.


(** ** The transport's client configuration *)

(** A class object, by its name. *)
Inductive PyClass : Type :=
| Class (name : str).

Inductive Codec : Type :=
| RelationalCodec (c : Relational.ClaimCheckCodec)
| CacheCodec (c : Cache.ClaimCheckCodec).

(** [temporalio.converter.DataConverter] *)
Record DataConverter : Type := mkDataConverter {
  payload_converter_class : PyClass;
  payload_codec : option Codec;
  failure_converter_class : PyClass
}.

(** [DataConverter(payload_converter_class=cls, payload_codec=codec)];
    the fields that are not passed take the dataclass defaults. *)
Definition DataConverter_new (cls : PyClass) (codec : option Codec) : DataConverter :=
  mkDataConverter cls codec (Class "DefaultFailureConverter").

(** [temporalio.client.ClientConfig]: the data converter and the keys the
    plugins do not touch. *)
Record ClientConfig : Type := mkClientConfig {
  data_converter : DataConverter;
  other_keys : list (str * str)
}.

(** [config["data_converter"] = dc] *)
Definition set_data_converter (dc : DataConverter) (config : ClientConfig)
  : ClientConfig :=
  mkClientConfig dc (other_keys config).

(** [temporalio.client.Plugin.configure_client], the method of the base
    class: it hands the configuration to the next plugin of the chain. *)
Definition Plugin_configure_client (next : ClientConfig -> result ClientConfig)
  (config : ClientConfig) : result ClientConfig :=
  next config.

(** The end of the plugin chain returns the configuration as it is. *)
Definition root_plugin (config : ClientConfig) : result ClientConfig :=
  Ok config.

(** ** The relational adapter
    ([src/temporal/claim_check/claim_check_plugin.py]) *)
Module RelationalPlugin.

Record ClaimCheckPlugin : Type := mkPlugin {
  useClaimCheck : bool;
  db2_config : DB2Config;
  ttl_hours : Z
}.

Section WithHelpers.

(** [common.util.str_to_bool] is not among the sources, and [int(s)] is the
    builtin ([None]: it raises [ValueError]). *)
Variable str_to_bool : str -> bool.
Variable py_int : str -> option Z.

Definition __init__ (env : Env) : result ClaimCheckPlugin :=
  let useClaimCheck := str_to_bool (getenv env "USE_CLAIM_CHECK" "False") in
  let db2_config := DB2Config_new env in
  match py_int (getenv env "CLAIM_CHECK_TTL_HOURS" "24") with
  | None => Err ValueError
  | Some ttl_hours => Ok (mkPlugin useClaimCheck db2_config ttl_hours)
  end.

End WithHelpers.

Definition get_data_converter (env : Env) (self : ClaimCheckPlugin)
  (config : ClientConfig) : result DataConverter :=
  let default_converter_class :=
    payload_converter_class (data_converter config) in
  if useClaimCheck self then
    match Relational.__init__ env
            [("config", VConfig (db2_config self));
             ("ttl_hours", VInt (ttl_hours self))] with
    | Err e => Err e
    | Ok claim_check_codec =>
        Ok (DataConverter_new default_converter_class
              (Some (RelationalCodec claim_check_codec)))
    end
  else Ok (DataConverter_new default_converter_class None).

(** [next] is [self.next_plugin.configure_client]. *)
Definition configure_client (env : Env) (self : ClaimCheckPlugin)
  (next : ClientConfig -> result ClientConfig) (config : ClientConfig)
  : result ClientConfig :=
  match get_data_converter env self config with
  | Err e => Err e
  | Ok dc => next (set_data_converter dc config)
  end.

End RelationalPlugin.

(** ** The cache-backed adapter
    ([src/temporal_supervisor/claim_check/claim_check_plugin.py]) *)
Module CachePlugin.

Record ClaimCheckPlugin : Type := mkPlugin {
  useClaimCheck : bool;
  redisHost : str;
  redisPort : Z;
  enableCompression : bool;
  compressionThreshold : Z
}.

Section WithHelpers.

Variable str_to_bool : str -> bool.
Variable py_int : str -> option Z.

Definition __init__ (env : Env) : result ClaimCheckPlugin :=
  let useClaimCheck := str_to_bool (getenv env "USE_CLAIM_CHECK" "False") in
  let redisHost := getenv env "REDIS_HOST" "localhost" in
  match py_int (getenv env "REDIS_PORT" "6379") with
  | None => Err ValueError
  | Some redisPort =>
      let enableCompression :=
        str_to_bool (getenv env "CLAIM_CHECK_COMPRESSION" "True") in
      match py_int (getenv env "CLAIM_CHECK_COMPRESSION_THRESHOLD" "250") with
      | None => Err ValueError
      | Some compressionThreshold =>
          Ok (mkPlugin useClaimCheck redisHost redisPort enableCompression
                compressionThreshold)
      end
  end.

End WithHelpers.

Definition get_data_converter (self : ClaimCheckPlugin) (config : ClientConfig)
  : DataConverter :=
  let default_converter_class :=
    payload_converter_class (data_converter config) in
  if useClaimCheck self then
    let claim_check_codec :=
      Cache.__init__ (redisHost self) (redisPort self)
        (enableCompression self) (compressionThreshold self) in
    DataConverter_new default_converter_class
      (Some (CacheCodec claim_check_codec))
  else DataConverter_new default_converter_class None.

(** [return super().configure_client(config)]; [next] is the rest of the
    plugin chain, which the base class calls. *)
Definition configure_client (self : ClaimCheckPlugin)
  (next : ClientConfig -> result ClientConfig) (config : ClientConfig)
  : result ClientConfig :=
  Plugin_configure_client next config.

End CachePlugin.

(** ** The standalone codec server
    ([src/temporal/codec_server/codec_server.py]) *)
Module CodecServer.

Inductive Handler : Type :=
| apply_encode (codec : Relational.ClaimCheckCodec)   (* [partial(apply, codec.encode)] *)
| apply_decode (codec : Relational.ClaimCheckCodec)   (* [partial(apply, codec.decode)] *)
| cors_options.

Inductive Method : Type := POST | OPTIONS.

(** [web.Application] with its route table. *)
Record Application : Type := mkApplication {
  routes : list (Method * str * Handler)
}.

Section WithHelpers.

Variable str_to_bool : str -> bool.
Variable py_int : str -> option Z.

Definition build_codec_server (env : Env) : result Application :=
  let db2_config := DB2Config_new env in
  match py_int (getenv env "CLAIM_CHECK_TTL_HOURS" "1440") with
  | None => Err ValueError
  | Some ttl_hours =>
      let enable_compression :=
        str_to_bool (getenv env "CLAIM_CHECK_COMPRESSION" "True") in
      match py_int (getenv env "CLAIM_CHECK_COMPRESSION_THRESHOLD" "250") with
      | None => Err ValueError
      | Some compression_threshold =>
          match Relational.__init__ env
                  [("config", VConfig db2_config);
                   ("ttl_hours", VInt ttl_hours);
                   ("enable_compression", VBool enable_compression);
                   ("compression_threshold", VInt compression_threshold)] with
          | Err e => Err e
          | Ok codec =>
              Ok (mkApplication
                    [(POST, "/encode", apply_encode codec);
                     (POST, "/decode", apply_decode codec);
                     (OPTIONS, "/decode", cors_options)])
          end
      end
  end.

End WithHelpers.
End CodecServer.

(** ** A reference instance of the library interfaces

    The codecs are parametrised by the protobuf, gzip and base64 functions.
    The formats below are one model of them, on which the codecs can be run:
    every field is written byte by byte behind a continuation mark and
    closed by an end mark. *)
Module Wire.

Fixpoint put_field (s k : string) : string :=
  match s with
  | EmptyString => String "0" k
  | String c r => String "1" (String c (put_field r k))
  end.

Fixpoint put_fields (l : list string) : string :=
  match l with
  | [] => EmptyString
  | x :: r => put_field x (put_fields r)
  end.

Fixpoint get_fields (acc s : string) : list string :=
  match s with
  | EmptyString => []
  | String mark rest =>
      if Ascii.eqb mark "0" then acc :: get_fields EmptyString rest
      else match rest with
           | EmptyString => []
           | String c rest' => get_fields (acc +:+ String c EmptyString) rest'
           end
  end.

Fixpoint pairs (l : list string) : list (string * string) :=
  match l with
  | k :: v :: r => (k, v) :: pairs r
  | _ => []
  end.

Definition fields_of (p : Payload) : list string :=
  data p :: flat_map (fun kv => [fst kv; snd kv]) (map_to_list (metadata p)).

Definition SerializeToString (p : Payload) : bytes :=
  put_fields (fields_of p).

Definition FromString (b : bytes) : option Payload :=
  match get_fields EmptyString b with
  | [] => None
  | d :: kvs => Some (mkPayload (list_to_map (pairs kvs)) d)
  end.

(** A stored block with a two-byte magic number; the time stamp of the
    header is not kept. *)
Definition gzip_compress (mtime : Z) (b : bytes) : bytes :=
  String "031" (String "139" b).

Definition gzip_decompress (b : bytes) : option bytes :=
  match b with
  | String m1 (String m2 rest) =>
      if Ascii.eqb m1 "031" && Ascii.eqb m2 "139" then Some rest else None
  | _ => None
  end.

(** Two hexadecimal digits per byte. *)
Definition unhex_digit (c : ascii) : option N :=
  let n := N_of_ascii c in
  if between 48 57 n then Some (n - 48)%N
  else if between 97 102 n then Some (n - 87)%N
  else None.

Fixpoint b64encode_str (b : bytes) : str :=
  match b with
  | EmptyString => EmptyString
  | String c r =>
      String (hex_digit (N_of_ascii c / 16)) (String (hex_digit (N_of_ascii c mod 16))
        (b64encode_str r))
  end.

Fixpoint b64decode (s : str) : option bytes :=
  match s with
  | EmptyString => Some EmptyString
  | String _ EmptyString => None
  | String h (String l r) =>
      match unhex_digit h, unhex_digit l, b64decode r with
      | Some x, Some y, Some rest => Some (String (ascii_of_N (16 * x + y)) rest)
      | _, _, _ => None
      end
  end.

End Wire.

(** ** Sample objects on which the codecs are run *)
Module Sample.

Definition plain : Payload :=
  {| metadata := <["encoding" := "json/plain"]> ∅; data := "[1, 2, 3]" |}.

Definition cache_codec : Cache.ClaimCheckCodec :=
  Cache.__init__ "localhost" 6379 true 250.

Definition rel_codec : Relational.ClaimCheckCodec :=
  Relational.mkCodec DB2Config_defaults 24.

(** A codec that has not connected yet, in front of a database without the
    table, inside the workflow run [("wf-1", "run-1")]; the driver calls
    fail as [fates] says. *)
Definition rel_state (fates : list bool) : Relational.State :=
  {| Relational._connection := None;
     Relational._initialized := false;
     Relational.table := None;
     Relational.txn := None;
     Relational.now := 1700000000;
     Relational.faults := fates;
     Relational.trace := [];
     Relational.draws := 0;
     Relational.entropy := fun n => (N.of_nat n + 0x0123456789abcdef0123456789abcdef)%N;
     Relational.workflow_info := Some ("wf-1", "run-1");
     Relational.ticks := [] |}.

(** A connected codec in front of a table that holds, for the workflow
    [wf-1], a row of the run [run-1] and a row written outside a workflow
    run (empty run id), and a row of the workflow [wf-2]. *)
Definition row_run1 : Relational.Row :=
  Relational.mkRow "id-1" "00" "wf-1" (Some "run-1") 1700000000 1700086400.
Definition row_norun : Relational.Row :=
  Relational.mkRow "id-2" "00" "wf-1" (Some EmptyString) 1700000000 1700086400.
Definition row_other : Relational.Row :=
  Relational.mkRow "id-3" "00" "wf-2" (Some "run-1") 1700000000 1700086400.

Definition rel_state_rows : Relational.State :=
  {| Relational._connection := Some (Relational.Connection "DATABASE=testdb;");
     Relational._initialized := true;
     Relational.table := Some [row_run1; row_norun; row_other];
     Relational.txn := None;
     Relational.now := 1700000000;
     Relational.faults := [];
     Relational.trace := [];
     Relational.draws := 0;
     Relational.entropy := fun n => N.of_nat n;
     Relational.workflow_info := None;
     Relational.ticks := [] |}.

(** A token of either codec for a blob that no store holds. *)
Definition dangling : Payload :=
  reference_token "v1" "00000000-0000-0000-0000-000000000000".

(** A payload that carries the claim-check encoding and, as version tag,
    the single byte 0xFF. *)
Definition bad_tag : Payload :=
  {| metadata := <[ENCODING_KEY := "claim-checked"]>
                   (<[CODEC_KEY := String "255" EmptyString]> ∅);
     data := "00000000-0000-0000-0000-000000000000" |}.

(** A payload that carries the claim-check encoding and a version tag that
    no codec writes. *)
Definition unknown_tag : Payload :=
  {| metadata := <[ENCODING_KEY := "claim-checked"]> (<[CODEC_KEY := "v2"]> ∅);
     data := "00000000-0000-0000-0000-000000000000" |}.

(** The cache-backed adapter with claim check enabled, and a client
    configuration with the default data converter. *)
Definition cache_plugin_enabled : CachePlugin.ClaimCheckPlugin :=
  CachePlugin.mkPlugin true "localhost" 6379 true 250.

Definition default_config : ClientConfig :=
  mkClientConfig
    (mkDataConverter (Class "DefaultPayloadConverter") None
       (Class "DefaultFailureConverter"))
    [("namespace", "default")].

(** The same codec with a threshold that [plain] reaches. *)
Definition cache_codec_low : Cache.ClaimCheckCodec :=
  Cache.__init__ "localhost" 6379 true 10.


(** An empty Redis server that answers every call. *)
Definition cache_world : Cache.World :=
  {| Cache.kv := ∅;
     Cache.now := 1700000000;
     Cache.faults := [];
     Cache.draws := 0;
     Cache.entropy := fun n => (N.of_nat n + 0x0123456789abcdef0123456789abcdef)%N |}.

(** A second codec object for the same database, with a week to live. *)
Definition rel_codec_week : Relational.ClaimCheckCodec :=
  Relational.mkCodec DB2Config_defaults 168.

(** A second payload, for batches of two. *)
Definition note : Payload :=
  {| metadata := <["encoding" := "json/plain"]> ∅; data := "{}" |}.

(** A row whose expiry has passed at the instant of [rel_state_mixed], and a
    connected codec in front of a table that holds it beside a live row. *)
Definition row_old : Relational.Row :=
  Relational.mkRow "id-0" "00" "wf-0" (Some "run-0") 1699900000 1699990000.

Definition rel_state_mixed : Relational.State :=
  {| Relational._connection := Some (Relational.Connection "DATABASE=testdb;");
     Relational._initialized := true;
     Relational.table := Some [row_old; row_run1];
     Relational.txn := None;
     Relational.now := 1700000000;
     Relational.faults := [];
     Relational.trace := [];
     Relational.draws := 0;
     Relational.entropy := fun n => N.of_nat n;
     Relational.workflow_info := None;
     Relational.ticks := [] |}.

End Sample.

(** * Properties *)

(** ** Text: ASCII strings decode, and UUIDs print as ASCII *)

Lemma is_ascii_nil : is_ascii EmptyString.
Proof. intros c []. Qed.

Lemma is_ascii_cons c s :
  (N_of_ascii c < 128)%N -> is_ascii s -> is_ascii (String c s).
Proof. intros Hc Hs x [<- | Hx]; [exact Hc | exact (Hs x Hx)]. Qed.

Lemma is_ascii_inv c s :
  is_ascii (String c s) -> (N_of_ascii c < 128)%N /\ is_ascii s.
Proof.
  intros H. split.
  - apply H. now left.
  - intros x Hx. apply H. now right.
Qed.

Lemma append_cons c a b : String c a +:+ b = String c (a +:+ b).
Proof. reflexivity. Qed.

Lemma is_ascii_app a b : is_ascii a -> is_ascii b -> is_ascii (a +:+ b).
Proof.
  induction a as [| c a IH]; intros Ha Hb; [exact Hb |].
  apply is_ascii_inv in Ha as [Hc Ha].
  rewrite append_cons. apply is_ascii_cons; auto.
Qed.

Lemma is_ascii_substring s : is_ascii s -> forall n m, is_ascii (substring n m s).
Proof.
  induction s as [| c s IH]; intros Hs n m.
  - destruct n, m; simpl; apply is_ascii_nil.
  - apply is_ascii_inv in Hs as [Hc Hs].
    destruct n as [| n]; simpl.
    + destruct m as [| m]; [apply is_ascii_nil |].
      apply is_ascii_cons; auto.
    + apply IH; assumption.
Qed.

Lemma hex_digit_ascii n : (N_of_ascii (hex_digit n) < 128)%N.
Proof.
  unfold hex_digit.
  repeat (match goal with
          | |- context [match ?x with _ => _ end] => destruct x
          end; try (vm_compute; reflexivity)).
Qed.

Lemma hex_fixed_ascii w n : is_ascii (hex_fixed w n).
Proof.
  induction w as [| w IH]; simpl.
  - apply is_ascii_nil.
  - apply is_ascii_cons; [apply hex_digit_ascii | exact IH].
Qed.

Lemma uuid_str_ascii u : is_ascii (uuid_str u).
Proof.
  unfold uuid_str.
  assert (Hd : is_ascii "-") by (apply is_ascii_cons; [vm_compute; reflexivity | apply is_ascii_nil]).
  repeat apply is_ascii_app;
    auto using is_ascii_substring, hex_fixed_ascii.
Qed.

Lemma utf8_step_ascii c :
  (N_of_ascii c < 128)%N -> utf8_step U_start (N_of_ascii c) = Some U_start.
Proof.
  intros H. unfold utf8_step.
  assert (Hb : between 0 127 (N_of_ascii c) = true).
  { unfold between. apply andb_true_iff. split; apply N.leb_le; lia. }
  now rewrite Hb.
Qed.

Lemma ascii_utf8_run s : is_ascii s -> utf8_run U_start s = true.
Proof.
  induction s as [| c s IH]; intros Hs; cbn [utf8_run]; [reflexivity |].
  apply is_ascii_inv in Hs as [Hc Hs].
  rewrite (utf8_step_ascii c Hc). auto.
Qed.

Lemma bytes_decode_ascii s : is_ascii s -> bytes_decode s = Ok s.
Proof. intros H. unfold bytes_decode. now rewrite ascii_utf8_run. Qed.

(** The identifier written into a token is read back by [decode]. *)
Lemma bytes_decode_uuid u : bytes_decode (str_encode (uuid_str u)) = Ok (uuid_str u).
Proof. apply bytes_decode_ascii, uuid_str_ascii. Qed.

(** ** The reference instance satisfies the laws of the libraries *)

Lemma append_empty_r s : s +:+ EmptyString = s.
Proof. induction s; [reflexivity | rewrite append_cons; congruence]. Qed.

Lemma append_snoc acc c r : (acc +:+ String c EmptyString) +:+ r = acc +:+ String c r.
Proof. induction acc; [reflexivity | rewrite !append_cons; congruence]. Qed.

Lemma get_put_field s : forall acc k,
  Wire.get_fields acc (Wire.put_field s k) = (acc +:+ s) :: Wire.get_fields EmptyString k.
Proof.
  induction s as [| c s IH]; intros acc k; simpl.
  - now rewrite append_empty_r.
  - now rewrite IH, append_snoc.
Qed.

Lemma get_put_fields l : Wire.get_fields EmptyString (Wire.put_fields l) = l.
Proof.
  induction l as [| x l IH]; simpl; [reflexivity |].
  now rewrite get_put_field, IH.
Qed.

Lemma pairs_flat (l : list (string * string)) :
  Wire.pairs (flat_map (fun kv => [fst kv; snd kv]) l) = l.
Proof.
  induction l as [| [k v] l IH]; simpl; [reflexivity | now rewrite IH].
Qed.

Lemma Wire_FromString_SerializeToString p :
  Wire.FromString (Wire.SerializeToString p) = Some p.
Proof.
  unfold Wire.FromString, Wire.SerializeToString, Wire.fields_of.
  rewrite get_put_fields, pairs_flat, list_to_map_to_list.
  now destruct p.
Qed.

Lemma Wire_gzip_decompress_compress t b :
  Wire.gzip_decompress (Wire.gzip_compress t b) = Some b.
Proof. reflexivity. Qed.

Lemma unhex_hex_byte c :
  match Wire.unhex_digit (hex_digit (N_of_ascii c / 16)),
        Wire.unhex_digit (hex_digit (N_of_ascii c mod 16)) with
  | Some x, Some y => ascii_of_N (16 * x + y) = c
  | _, _ => False
  end.
Proof. destruct c as [[] [] [] [] [] [] [] []]; vm_compute; reflexivity. Qed.

Lemma Wire_b64decode_b64encode b : Wire.b64decode (Wire.b64encode_str b) = Some b.
Proof.
  induction b as [| c b IH]; [reflexivity |].
  cbn [Wire.b64encode_str Wire.b64decode]. rewrite IH.
  pose proof (unhex_hex_byte c) as H.
  destruct (Wire.unhex_digit (hex_digit (N_of_ascii c / 16))); [| contradiction].
  destruct (Wire.unhex_digit (hex_digit (N_of_ascii c mod 16))); [| contradiction].
  now rewrite H.
Qed.

(** ** Reasoning about computations *)

Ltac unfold_monad :=
  unfold bind, ret, raise, try, lift, get, modify in *.

(** Splits a hypothesis [bind c k s = (r, s')] on the outcome of [c]. *)
Ltac split_bind H x s1 E :=
  let r := fresh "r" in
  unfold bind in H at 1;
  match type of H with
  | (match ?c with _ => _ end) = _ =>
      destruct c as [r s1] eqn:E; destruct r as [x | x]
  end.

Lemma bind_Ok {S A B} (c : M S A) (k : A -> M S B) s a s1 :
  c s = (Ok a, s1) -> bind c k s = k a s1.
Proof. intros H. unfold bind. now rewrite H. Qed.

Lemma bind_Err {S A B} (c : M S A) (k : A -> M S B) s e s1 :
  c s = (Err e, s1) -> bind c k s = (Err e, s1).
Proof. intros H. unfold bind. now rewrite H. Qed.

(** ** The loop of [encode] and [decode] *)
Section ForAppend.

Context {S A B : Type} (f : A -> M S B).

Lemma for_append_acc xs : forall out s,
  for_append f xs out s =
  match for_append f xs [] s with
  | (Ok o, s') => (Ok (out ++ o), s')
  | (Err e, s') => (Err e, s')
  end.
Proof.
  induction xs as [| x xs IH]; intros out s; cbn [for_append].
  - now rewrite app_nil_r.
  - destruct (f x s) as [[y | e] s1]; [| reflexivity].
    rewrite (IH (out ++ [y])), (IH ([] ++ [y])).
    destruct (for_append f xs [] s1) as [[o | e] s2]; [| reflexivity].
    now rewrite <- app_assoc.
Qed.

Lemma for_append_cons x xs s :
  for_append f (x :: xs) [] s =
  match f x s with
  | (Ok y, s1) =>
      match for_append f xs [] s1 with
      | (Ok o, s2) => (Ok (y :: o), s2)
      | (Err e, s2) => (Err e, s2)
      end
  | (Err e, s1) => (Err e, s1)
  end.
Proof.
  cbn [for_append]. destruct (f x s) as [[y | e] s1]; [| reflexivity].
  now rewrite for_append_acc.
Qed.

Lemma for_append_app xs ys : forall s,
  for_append f (xs ++ ys) [] s =
  match for_append f xs [] s with
  | (Ok o1, s1) =>
      match for_append f ys [] s1 with
      | (Ok o2, s2) => (Ok (o1 ++ o2), s2)
      | (Err e, s2) => (Err e, s2)
      end
  | (Err e, s1) => (Err e, s1)
  end.
Proof.
  induction xs as [| x xs IH]; intros s.
  - cbn [app for_append].
    destruct (for_append f ys [] s) as [[o | e] s1]; reflexivity.
  - rewrite <- app_comm_cons, !for_append_cons.
    destruct (f x s) as [[y | e] s1]; [| reflexivity].
    rewrite IH.
    destruct (for_append f xs [] s1) as [[o1 | e] s2]; [| reflexivity].
    destruct (for_append f ys [] s2) as [[o2 | e] s3]; reflexivity.
Qed.

(** Every element of the output comes from the element of the input at the
    same position. *)
Lemma for_append_Forall2 xs : forall s outs s',
  for_append f xs [] s = (Ok outs, s') ->
  Forall2 (fun x y => exists s1 s2, f x s1 = (Ok y, s2)) xs outs.
Proof.
  induction xs as [| x xs IH]; intros s outs s' H.
  - cbn in H. inversion H. constructor.
  - rewrite for_append_cons in H.
    destruct (f x s) as [[y | e] s1] eqn:E; [| discriminate].
    destruct (for_append f xs [] s1) as [[o | e] s2] eqn:E2; [| discriminate].
    inversion H; subst. constructor; eauto.
Qed.

End ForAppend.

Lemma for_append_id {S A} (f : A -> M S A) xs s :
  Forall (fun x => f x s = (Ok x, s)) xs ->
  for_append f xs [] s = (Ok xs, s).
Proof.
  induction 1 as [| x xs Hx _ IH]; [reflexivity |].
  now rewrite for_append_cons, Hx, IH.
Qed.

Lemma for_append_singleton {S A B} (f : A -> M S B) x s outs s' :
  for_append f [x] [] s = (Ok outs, s') ->
  exists y, outs = [y] /\ f x s = (Ok y, s').
Proof.
  cbn [for_append]. destruct (f x s) as [[y | e] s1]; [| discriminate].
  intros H. inversion H; subst. eauto.
Qed.

(** ** The cache-backed codec *)
Section CacheProperties.

Variable SerializeToString : Payload -> bytes.
Variable FromString : bytes -> option Payload.
Variable gzip_compress : Z -> bytes -> bytes.
Variable gzip_decompress : bytes -> option bytes.

Hypothesis FromString_SerializeToString :
  forall p, FromString (SerializeToString p) = Some p.
Hypothesis gzip_decompress_compress :
  forall t b, gzip_decompress (gzip_compress t b) = Some b.

Local Abbreviation encode_payload := (Cache.encode_payload SerializeToString gzip_compress).
Local Abbreviation encode := (Cache.encode SerializeToString gzip_compress).
Local Abbreviation decode_payload := (Cache.decode_payload FromString gzip_decompress).
Local Abbreviation decode := (Cache.decode FromString gzip_decompress).
Local Abbreviation stored_form := (Cache.stored_form SerializeToString gzip_compress).
Local Abbreviation version_tag := (Cache.version_tag SerializeToString).

Lemma cache_encode_payload_Ok self p w tok w' :
  encode_payload self p w = (Ok tok, w') ->
  tok = reference_token (version_tag self p) (Cache.next_id w)
  /\ Cache.kv w' = <[Cache.next_id w := Cache.mkEntry (stored_form self p w) None]> (Cache.kv w)
  /\ Cache.now w' = Cache.now w
  /\ Cache.faults w' = tail (Cache.faults w).
Proof.
  unfold Cache.encode_payload, Cache.version_tag, Cache.stored_form, Cache.next_id,
    Cache.redis_set, Cache.client_call, Cache.uuid4_str.
  unfold_monad.
  destruct (Cache.should_compress self _);
    destruct w as [kv0 now0 [| [] fs] dr en]; simpl;
    intros H; inversion H; subst; simpl; auto.
Qed.

(** When the server answers, [encode_payload] returns. *)
Lemma cache_encode_payload_quiet self p w :
  Cache.faults w = [] ->
  exists tok w', encode_payload self p w = (Ok tok, w') /\ Cache.faults w' = [].
Proof.
  intros Hq.
  unfold Cache.encode_payload, Cache.redis_set, Cache.client_call, Cache.uuid4_str.
  unfold_monad.
  destruct (Cache.should_compress self _);
    destruct w as [kv0 now0 fs dr en]; simpl in *; subst; simpl; eauto.
Qed.

(** C3. In [encode_payload] of the cache-backed codec, a payload whose
    serialized length reaches the threshold is, when compression is
    enabled, stored compressed under the identifier of the token and tagged
    [v1c]; below the threshold, or with compression disabled, the raw
    serialized bytes are stored and the tag is [v1]. *)
Theorem cache_encode_tag_follows_threshold self p w tok w' :
  encode_payload self p w = (Ok tok, w') ->
  let raw := SerializeToString p in
  let stored := Cache.value <$> (Cache.kv w' !! data tok) in
  (Cache.enable_compression self = true ->
   Cache.compression_threshold self <= len raw ->
   stored = Some (gzip_compress (Cache.now w) raw)
   /\ metadata tok !! CODEC_KEY = Some "v1c")
  /\ (len raw < Cache.compression_threshold self ->
      stored = Some raw /\ metadata tok !! CODEC_KEY = Some "v1")
  /\ (Cache.enable_compression self = false ->
      stored = Some raw /\ metadata tok !! CODEC_KEY = Some "v1").
Proof.
  intros H. apply cache_encode_payload_Ok in H as (-> & Hkv & _ & _).
  cbn zeta. rewrite Hkv. unfold reference_token, str_encode; cbn [data metadata].
  rewrite lookup_insert_eq. cbn [fmap option_fmap option_map Cache.value].
  unfold Cache.stored_form, Cache.version_tag, Cache.should_compress.
  repeat split.
  - rewrite H. replace (_ <=? _) with true by (symmetry; apply Z.leb_le; lia).
    reflexivity.
  - rewrite H. replace (_ <=? _) with true by (symmetry; apply Z.leb_le; lia).
    reflexivity.
  - replace (_ <=? _) with false by (symmetry; apply Z.leb_gt; lia).
    now rewrite andb_false_r.
  - replace (_ <=? _) with false by (symmetry; apply Z.leb_gt; lia).
    now rewrite andb_false_r.
  - now rewrite H.
  - now rewrite H.
Qed.

(** C6, as the code has it. Every write that [encode_payload] of the
    cache-backed codec performs stores the entry without an expiry: the
    blob stays readable under the token's identifier however much time
    passes. *)
Theorem cache_encode_stores_without_expiry self p w tok w' :
  encode_payload self p w = (Ok tok, w') ->
  exists v,
    Cache.kv w' !! data tok = Some (Cache.mkEntry v None)
    /\ forall d, Cache.live (Cache.elapse d w') (data tok) = Some v.
Proof.
  intros H. apply cache_encode_payload_Ok in H as (-> & Hkv & _ & _).
  exists (stored_form self p w).
  assert (Hl : Cache.kv w' !! Cache.next_id w
               = Some (Cache.mkEntry (stored_form self p w) None))
    by (rewrite Hkv; apply lookup_insert_eq).
  split; [exact Hl |].
  intros d. unfold Cache.live, Cache.elapse, reference_token, str_encode.
  cbn [Cache.kv Cache.now data]. now rewrite Hl.
Qed.

(** *** [decode] *)

Lemma cache_decode_payload_unrecognized self p w v :
  bytes_decode (metadata_get p CODEC_KEY) = Ok v ->
  Cache.accepted v = false ->
  decode_payload self p w = (Ok p, w).
Proof.
  intros Hv Ha. unfold Cache.decode_payload. unfold_monad.
  rewrite Hv, Ha. reflexivity.
Qed.

Lemma cache_decode_payload_unmarked self p w :
  metadata p !! CODEC_KEY = None ->
  decode_payload self p w = (Ok p, w).
Proof.
  intros H. apply cache_decode_payload_unrecognized with (v := EmptyString).
  - unfold metadata_get. now rewrite H.
  - reflexivity.
Qed.

Lemma cache_decode_payload_illformed_tag self p w :
  bytes_decode (metadata_get p CODEC_KEY) = Err UnicodeDecodeError ->
  decode_payload self p w = (Err UnicodeDecodeError, w).
Proof.
  intros Hv. unfold Cache.decode_payload. unfold_monad. now rewrite Hv.
Qed.

(** A token whose key is absent or expired, or whose fetch raises, makes
    the loop body raise. *)
Lemma cache_decode_payload_fetch_fails self p w v rid :
  bytes_decode (metadata_get p CODEC_KEY) = Ok v ->
  Cache.accepted v = true ->
  bytes_decode (data p) = Ok rid ->
  Cache.live w rid = None \/ head (Cache.faults w) = Some true ->
  exists e w', decode_payload self p w = (Err e, w').
Proof.
  intros Hv Ha Hid Hmiss.
  unfold Cache.decode_payload, Cache.redis_get, Cache.client_call. unfold_monad.
  rewrite Hv, Ha, Hid. cbn [negb].
  destruct (Cache.faults w) as [| [] fs] eqn:Hf; eauto;
    (destruct Hmiss as [Hl | Hh]; [| discriminate]).
  - rewrite Hl. destruct (bool_decide (v = "v1c")); eauto.
  - change (Cache.live (Cache.set_faults fs w) rid) with (Cache.live w rid).
    rewrite Hl. destruct (bool_decide (v = "v1c")); eauto.
Qed.

Lemma reference_token_tag v i : metadata_get (reference_token v i) CODEC_KEY = v.
Proof.
  unfold metadata_get, reference_token; cbn [metadata].
  rewrite lookup_insert_ne by discriminate.
  now rewrite lookup_insert_eq.
Qed.

(** The token that [encode_payload] returns is resolved by the loop body of
    [decode] as long as the store answers. *)
Lemma cache_decode_payload_encoded self self' p w tok w1 :
  encode_payload self p w = (Ok tok, w1) ->
  Cache.faults w1 = [] ->
  decode_payload self' tok w1 = (Ok p, w1).
Proof using FromString_SerializeToString gzip_decompress_compress.
  intros H Hq. apply cache_encode_payload_Ok in H as (-> & Hkv & Hnow & _).
  unfold Cache.decode_payload, Cache.redis_get, Cache.client_call. unfold_monad.
  rewrite reference_token_tag.
  assert (Hlive : Cache.live w1 (Cache.next_id w) = Some (stored_form self p w)).
  { unfold Cache.live. rewrite Hkv, lookup_insert_eq. reflexivity. }
  unfold reference_token; cbn [data]. unfold Cache.next_id in *.
  rewrite bytes_decode_uuid.
  unfold Cache.version_tag, Cache.stored_form in *.
  destruct (Cache.should_compress self _).
  - change (bytes_decode "v1c") with (Ok "v1c" : result string). cbv beta iota.
    change (Cache.accepted "v1c") with true. cbn [negb]. cbv beta iota.
    rewrite Hq. cbv beta iota. rewrite Hlive.
    change (bool_decide ("v1c" = "v1c")) with true. cbv beta iota.
    rewrite gzip_decompress_compress, FromString_SerializeToString. reflexivity.
  - change (bytes_decode "v1") with (Ok "v1" : result string). cbv beta iota.
    change (Cache.accepted "v1") with true. cbn [negb]. cbv beta iota.
    rewrite Hq. cbv beta iota. rewrite Hlive.
    change (bool_decide ("v1" = "v1c")) with false. cbv beta iota.
    rewrite FromString_SerializeToString. reflexivity.
Qed.

(** Changing anything but the version tag and the body of a payload does
    not change what the loop body does with it. *)
Lemma cache_decode_payload_reads_tag_and_body self p q w :
  metadata p !! CODEC_KEY = metadata q !! CODEC_KEY ->
  data p = data q ->
  (exists w', decode_payload self p w = (Ok p, w')
              /\ decode_payload self q w = (Ok q, w'))
  \/ decode_payload self p w = decode_payload self q w.
Proof.
  intros Hm Hd. unfold Cache.decode_payload, metadata_get. unfold_monad.
  rewrite <- Hm, <- Hd.
  destruct (bytes_decode (default EmptyString (metadata p !! CODEC_KEY))) as [v | e];
    [| now right].
  destruct (Cache.accepted v); cbn [negb]; [now right | left; eauto].
Qed.

End CacheProperties.

(** ** The relational codec *)

(** *** What the driver calls leave untouched *)
Section Keeps.

Import Relational.

Variable R : State -> State -> Prop.
Hypothesis R_refl : forall s, R s s.
Hypothesis R_trans : forall s1 s2 s3, R s1 s2 -> R s2 s3 -> R s1 s3.

Lemma keeps_ret {A} (a : A) : keeps R (ret a).
Proof using R_refl. intros s r s' H. inversion H. apply R_refl. Qed.

Lemma keeps_raise {A} e : keeps R (@raise State A e).
Proof using R_refl. intros s r s' H. inversion H. apply R_refl. Qed.

Lemma keeps_get : keeps R get.
Proof using R_refl. intros s r s' H. inversion H. apply R_refl. Qed.

Lemma keeps_bind {A B} (c : M State A) (k : A -> M State B) :
  keeps R c -> (forall a, keeps R (k a)) -> keeps R (bind c k).
Proof using R_trans.
  intros Hc Hk s r s' H. unfold bind in H.
  destruct (c s) as [[a | e] s1] eqn:E.
  - eapply R_trans; [eapply Hc; eauto | eapply Hk; eauto].
  - inversion H; subst. eapply Hc; eauto.
Qed.

Lemma keeps_try {A} (c : M State A) : keeps R c -> keeps R (try c).
Proof.
  intros Hc s r s' H. unfold try in H.
  destruct (c s) as [r1 s1] eqn:E. inversion H; subst. eapply Hc; eauto.
Qed.

End Keeps.

Section RelationalFrames.

Import Relational.

Lemma steady_refl s : steady s s.
Proof. unfold steady. repeat split; auto. exists []. now rewrite app_nil_r. Qed.

Lemma steady_trans s1 s2 s3 : steady s1 s2 -> steady s2 s3 -> steady s1 s3.
Proof.
  unfold steady.
  intros (?&?&?&?&?&?&?&?&?&[o1 ?]) (?&?&?&?&?&?&?&?&?&[o2 ?]).
  repeat split; try congruence; auto.
  exists (o1 ++ o2). rewrite app_assoc. congruence.
Qed.

Lemma settled_refl s : settled s s.
Proof. unfold settled. repeat split; auto. exists []. now rewrite app_nil_r. Qed.

Lemma settled_trans s1 s2 s3 : settled s1 s2 -> settled s2 s3 -> settled s1 s3.
Proof.
  unfold settled.
  intros (?&?&?&?&?&?&?&?&?&?&[o1 ?]) (?&?&?&?&?&?&?&?&?&?&[o2 ?]).
  repeat split; try congruence; auto.
  exists (o1 ++ o2). rewrite app_assoc. congruence.
Qed.

Lemma steady_settled s s' : steady s s' -> settled s s'.
Proof.
  unfold steady, settled, committed, visible, view.
  intros (Ht&Hx&Hc&?&?&?&?&?&?&?).
  rewrite Ht, Hx, Hc. repeat split; auto.
Qed.

Lemma keeps_driver_call o : keeps steady (driver_call o).
Proof.
  intros s r s' H. unfold driver_call in H.
  destruct s as [c i t x n fs tr d en wi]; cbn in H.
  destruct fs as [| [] fs]; inversion H; subst; unfold steady; cbn;
    repeat split; eauto; discriminate.
Qed.

Lemma keeps_bind_params n : keeps steady (bind_params n).
Proof.
  induction n as [| n IH]; cbn [bind_params].
  - apply keeps_ret, steady_refl.
  - apply keeps_bind; [exact steady_trans | apply keeps_driver_call |].
    intros _. exact IH.
Qed.

Lemma keeps_ibm_db_prepare n : keeps steady (ibm_db_prepare n).
Proof.
  apply keeps_bind; [exact steady_trans | apply keeps_driver_call |].
  intros _. apply keeps_bind_params.
Qed.

Lemma keeps_ibm_db_connect cs : keeps steady (ibm_db_connect cs).
Proof.
  apply keeps_bind; [exact steady_trans | apply keeps_driver_call |].
  intros _. apply keeps_ret, steady_refl.
Qed.

Lemma keeps_weaken {A} (c : M State A) : keeps steady c -> keeps settled c.
Proof. intros H s r s' E. apply steady_settled. eapply H; eauto. Qed.

(** Creating the table when it is missing touches no row. *)
Lemma keeps_create_table_commit :
  keeps settled (modify (fun s => match table s with
                                  | None => set_table (Some []) s
                                  | Some _ => s
                                  end)).
Proof.
  intros s r s' H. unfold modify in H. inversion H; subst.
  destruct s as [c i [t |] [x |] n fs tr d en wi]; cbn;
    try apply settled_refl;
    unfold settled, committed, visible, view; cbn; repeat split; auto;
    try discriminate; exists []; now rewrite app_nil_r.
Qed.

Lemma keeps_create_claim_check_table cfg :
  keeps settled (create_claim_check_table cfg).
Proof.
  unfold create_claim_check_table.
  apply keeps_bind; [exact settled_trans | |].
  - apply keeps_try, keeps_weaken, keeps_ibm_db_connect.
  - intros [conn | e]; [| apply keeps_raise, settled_refl].
    apply keeps_bind; [exact settled_trans | |].
    + apply keeps_try.
      repeat (apply keeps_bind; [exact settled_trans | | intros ?]);
        try apply keeps_try;
        try (apply keeps_weaken, keeps_driver_call).
      apply keeps_create_table_commit.
    + intros [_ | e].
      * apply keeps_weaken, keeps_driver_call.
      * repeat (apply keeps_bind; [exact settled_trans | | intros ?]);
          try apply keeps_try;
          try (apply keeps_weaken, keeps_driver_call).
        apply keeps_raise, settled_refl.
Qed.

Lemma settled_set_connection s conn :
  _connection s = None -> settled s (set_connection (Some conn) s).
Proof.
  intros H. unfold settled, committed, visible, view; cbn.
  repeat split; auto; [congruence |]. exists []. now rewrite app_nil_r.
Qed.

Lemma keeps_set_initialized b : keeps settled (modify (set_initialized b)).
Proof.
  intros s r s' H. inversion H; subst.
  unfold settled, committed, visible, view; cbn.
  repeat split; auto. exists []. now rewrite app_nil_r.
Qed.

(** [_get_connection] touches no row; when it returns, the codec holds the
    connection it returned; when it raises, it raises [ConnectionError]. *)
Lemma get_connection_spec self s r s' :
  _get_connection self s = (r, s') ->
  settled s s'
  /\ (forall c, r = Ok c -> _connection s' = Some c)
  /\ (forall e, r = Err e -> e = ConnectionError).
Proof.
  unfold _get_connection. unfold bind at 1. unfold get at 1.
  destruct (_connection s) as [c0 |] eqn:Ec.
  - intros H. inversion H; subst.
    split; [apply settled_refl |]. split; intros; congruence.
  - unfold bind at 1, try at 1.
    match goal with
    | |- context [bind (ibm_db_connect ?cs) ?k s] =>
        destruct (bind (ibm_db_connect cs) k s) as [rb sb] eqn:Eb
    end.
    assert (Hb : settled s sb /\ (forall c, rb = Ok c -> _connection sb = Some c)).
    { clear - Eb Ec.
      split_bind Eb conn s1 E1; [| inversion Eb; subst].
      2: { split; [| discriminate].
           eapply steady_settled, keeps_ibm_db_connect; eauto. }
      pose proof (keeps_ibm_db_connect _ _ _ _ E1) as H1.
      assert (Hc1 : _connection s1 = None) by (destruct H1 as (_&_&->&_); exact Ec).
      unfold bind at 1, modify at 1 in Eb.
      pose proof (settled_set_connection s1 conn Hc1) as H2.
      set (s2 := set_connection (Some conn) s1) in *.
      unfold bind at 1, get at 1 in Eb.
      assert (H02 : settled s s2)
        by (eapply settled_trans; [apply steady_settled; eauto | exact H2]).
      assert (Hc2 : _connection s2 = Some conn) by reflexivity.
      split_bind Eb u s3 E3.
      - inversion Eb; subst.
        assert (H23 : settled s2 sb).
        { destruct (negb (_initialized s2)).
          - revert E3. apply keeps_bind; [exact settled_trans | |].
            + apply keeps_create_claim_check_table.
            + intros _. apply keeps_set_initialized.
          - inversion E3; subst. apply settled_refl. }
        split; [eapply settled_trans; eauto |].
        intros c Hc. inversion Hc; subst.
        destruct H23 as (_&_&_&_&Hk&_). auto.
      - inversion Eb; subst. split; [| discriminate].
        eapply settled_trans; [exact H02 |].
        destruct (negb (_initialized s2)).
        + revert E3. apply keeps_bind; [exact settled_trans | |].
          * apply keeps_create_claim_check_table.
          * intros _. apply keeps_set_initialized.
        + inversion E3. }
    destruct Hb as [Hs Hc].
    destruct rb as [conn | e]; intros H; inversion H; subst.
    + split; [exact Hs |]. split; [| discriminate].
      intros c Hcc. inversion Hcc; subst. auto.
    + split; [exact Hs |]. split; [discriminate |].
      intros e' He. now inversion He.
Qed.

End RelationalFrames.

(** *** Writing and reading rows *)
Section RelationalRows.

Import Relational.

Lemma steady_view s s' : steady s s' -> view s' = view s.
Proof. intros (Ht & Hx & _). unfold view. now rewrite Ht, Hx. Qed.

Lemma existsb_id_false (rows : list Row) i :
  existsb (fun x => bool_decide (id x = i)) rows = false ->
  forall r, In r rows -> id r <> i.
Proof.
  intros H r Hr Heq.
  assert (existsb (fun x => bool_decide (id x = i)) rows = true); [| congruence].
  apply existsb_exists. exists r. split; [exact Hr |]. now apply bool_decide_eq_true.
Qed.

(** When the [INSERT] and the [commit] go through, the row is the last
    committed row and its identifier was free. *)
Lemma insert_and_commit_Ok conn row s u s' :
  insert_and_commit conn row s = (Ok u, s') ->
  exists rows,
    view s = Some rows
    /\ (forall r, In r rows -> id r <> id row)
    /\ table s' = Some (rows ++ [row])
    /\ txn s' = None
    /\ _connection s' = _connection s
    /\ (faults s = [] -> faults s' = []).
Proof.
  unfold insert_and_commit. intros H.
  split_bind H u1 s1 E1; [| discriminate].
  apply keeps_ibm_db_prepare in E1.
  split_bind H u2 s2 E2; [| discriminate].
  unfold execute_insert in E2.
  split_bind E2 u3 s3 E3; [| discriminate].
  apply keeps_driver_call in E3.
  unfold bind at 1, get at 1 in E2.
  destruct (view s3) as [rows |] eqn:Ev; [| discriminate].
  destruct (existsb _ rows) eqn:Ex; [discriminate |].
  unfold modify in E2. inversion E2; subst s2; clear E2.
  unfold ibm_db_commit in H.
  split_bind H u4 s4 E4; [| discriminate].
  apply keeps_driver_call in E4.
  unfold modify in H. inversion H; subst s'; clear H.
  pose proof (steady_trans _ _ _ E1 E3) as H13.
  exists rows. rewrite <- (steady_view _ _ H13), Ev.
  destruct E4 as (Ht4 & Hx4 & Hc4 & _ & _ & _ & _ & _ & Hf4 & _).
  cbn in Hx4, Hc4, Hf4. rewrite Hx4. cbn.
  destruct H13 as (_ & _ & Hc & _ & _ & _ & _ & _ & Hf & _).
  repeat split; eauto using existsb_id_false; congruence.
Qed.









End RelationalRows.

(** *** The codec methods *)
Section RelationalProperties.

Import Relational.

Variable SerializeToString : Payload -> bytes.
Variable FromString : bytes -> option Payload.
Variable b64encode_str : bytes -> str.
Variable b64decode : str -> option bytes.

Hypothesis FromString_SerializeToString :
  forall p, FromString (SerializeToString p) = Some p.
Hypothesis b64decode_b64encode :
  forall b, b64decode (b64encode_str b) = Some b.

Local Abbreviation encode_payload := (Relational.encode_payload SerializeToString b64encode_str).
Local Abbreviation encode := (Relational.encode SerializeToString b64encode_str).
Local Abbreviation new_row := (Relational.new_row b64encode_str).
Local Abbreviation fetch_payload := (Relational.fetch_payload FromString b64decode).
Local Abbreviation decode_payload := (Relational.decode_payload FromString b64decode).
Local Abbreviation decode := (Relational.decode FromString b64decode).

(** [encode_payload] unfolded along its three steps: the identifier is
    drawn, the connection is obtained, the row is written. *)
Lemma rel_encode_payload_steps self p s :
  let pid := uuid_str (entropy s (draws s)) in
  let s0 := set_draws (S (draws s)) s in
  let row := new_row self pid (SerializeToString p) s0 in
  encode_payload self p s =
  match _get_connection self s0 with
  | (Err e, s1) => (Err UnboundLocalError, s1)
  | (Ok conn, s1) =>
      match insert_and_commit conn row s1 with
      | (Ok _, s2) => (Ok (reference_token "v1" pid), s2)
      | (Err e, s2) =>
          match ibm_db_rollback conn s2 with
          | (Ok _, s3) => (Err e, s3)
          | (Err e', s3) => (Err e', s3)
          end
      end
  end.
Proof.
  cbv zeta. unfold Relational.encode_payload.
  unfold bind at 1, uuid4_str at 1. unfold bind at 1, get at 1.
  unfold bind at 1, try at 1.
  destruct (_get_connection self _) as [[conn | e] s1]; [| reflexivity].
  unfold bind at 1, try at 1.
  destruct (insert_and_commit conn _ s1) as [[u | e] s2]; [reflexivity |].
  unfold bind at 1.
  destruct (ibm_db_rollback conn s2) as [[u | e'] s3]; reflexivity.
Qed.

(** A token is returned only when the row was written and committed. *)
Lemma rel_encode_payload_Ok self p s tok s' :
  encode_payload self p s = (Ok tok, s') ->
  let pid := uuid_str (entropy s (draws s)) in
  let row := new_row self pid (SerializeToString p) (set_draws (S (draws s)) s) in
  tok = reference_token "v1" pid
  /\ table s' = Some (visible s ++ [row])
  /\ (forall r, In r (visible s) -> id r <> pid)
  /\ txn s' = None
  /\ is_Some (_connection s').
Proof.
  rewrite rel_encode_payload_steps. cbv zeta.
  destruct (_get_connection self _) as [[conn | e] s1] eqn:Ec; [| discriminate].
  destruct (insert_and_commit conn _ s1) as [[u | e] s2] eqn:Ei.
  2: { destruct (ibm_db_rollback conn s2) as [[? | ?] ?]; discriminate. }
  intros H. inversion H; subst; clear H.
  apply get_connection_spec in Ec as (Hs & Hc & _).
  apply insert_and_commit_Ok in Ei as (rows & Hv & Hfree & Ht & Hx & Hcc & _).
  assert (Hrows : rows = visible s).
  { destruct Hs as (_ & Hvis & _). cbn in Hvis.
    unfold visible in Hvis at 1. rewrite Hv in Hvis. exact Hvis. }
  subst rows. repeat split; auto.
  rewrite Hcc, (Hc conn eq_refl). eauto.
Qed.

(** *** [decode] *)

Lemma driver_call_quiet o s :
  faults s = [] -> exists s', driver_call o s = (Ok tt, s') /\ steady s s'.
Proof.
  intros Hq. destruct (driver_call o s) as [r s'] eqn:E. exists s'.
  split; [| eapply keeps_driver_call; eauto].
  unfold driver_call in E. rewrite Hq in E. inversion E. reflexivity.
Qed.

Lemma bind_params_quiet n : forall s,
  faults s = [] -> exists s', bind_params n s = (Ok tt, s') /\ steady s s'.
Proof.
  induction n as [| n IH]; intros s Hq; cbn [bind_params].
  - exists s. split; [reflexivity | apply steady_refl].
  - destruct (driver_call_quiet OpBindParam s Hq) as (s1 & E1 & H1).
    destruct (IH s1) as (s2 & E2 & H2).
    { destruct H1 as (_&_&_&_&_&_&_&_&Hf&_). auto. }
    exists s2. split; [| eapply steady_trans; eauto].
    now rewrite (bind_Ok _ _ _ _ _ E1).
Qed.

Lemma ibm_db_prepare_quiet n s :
  faults s = [] -> exists s', ibm_db_prepare n s = (Ok tt, s') /\ steady s s'.
Proof.
  intros Hq. unfold ibm_db_prepare.
  destruct (driver_call_quiet OpPrepare s Hq) as (s1 & E1 & H1).
  destruct (bind_params_quiet n s1) as (s2 & E2 & H2).
  { destruct H1 as (_&_&_&_&_&_&_&_&Hf&_). auto. }
  exists s2. split; [| eapply steady_trans; eauto].
  now rewrite (bind_Ok _ _ _ _ _ E1).
Qed.

Lemma steady_quiet s s' : steady s s' -> faults s = [] -> faults s' = [].
Proof. intros (_&_&_&_&_&_&_&_&Hf&_). exact Hf. Qed.

Lemma execute_select_quiet pid s rows :
  faults s = [] -> view s = Some rows ->
  exists s', execute_select pid s
             = (Ok (find (fun x => bool_decide (id x = pid)) rows), s')
             /\ steady s s'.
Proof.
  intros Hq Hv. unfold execute_select.
  destruct (driver_call_quiet OpExecute s Hq) as (s1 & E1 & H1).
  rewrite (bind_Ok _ _ _ _ _ E1). unfold bind at 1, get at 1.
  rewrite (steady_view _ _ H1), Hv.
  destruct (driver_call_quiet OpFetchTuple s1 (steady_quiet _ _ H1 Hq)) as (s2 & E2 & H2).
  rewrite (bind_Ok _ _ _ _ _ E2).
  exists s2. split; [reflexivity | eapply steady_trans; eauto].
Qed.

(** With a connection at hand and a store that answers, the [try] block of
    [decode] returns what the first row with the identifier holds. *)
Lemma fetch_payload_quiet self pid s conn rows :
  _connection s = Some conn -> faults s = [] -> view s = Some rows ->
  exists s',
    steady s s'
    /\ fetch_payload self pid s =
       match find (fun x => bool_decide (id x = pid)) rows with
       | Some row =>
           match b64decode (payload_data row) with
           | None => (Err BinasciiError, s')
           | Some payload_bytes =>
               match FromString payload_bytes with
               | None => (Err DecodeError, s')
               | Some new_payload => (Ok (Some new_payload), s')
               end
           end
       | None => (Ok None, s')
       end.
Proof.
  intros Hc Hq Hv. unfold Relational.fetch_payload.
  assert (Eg : _get_connection self s = (Ok conn, s)).
  { unfold _get_connection. unfold bind at 1, get at 1. now rewrite Hc. }
  rewrite (bind_Ok _ _ _ _ _ Eg).
  destruct (ibm_db_prepare_quiet 1 s Hq) as (s1 & E1 & H1).
  rewrite (bind_Ok _ _ _ _ _ E1).
  destruct (execute_select_quiet pid s1 rows) as (s2 & E2 & H2).
  { eapply steady_quiet; eauto. }
  { now rewrite (steady_view _ _ H1). }
  rewrite (bind_Ok _ _ _ _ _ E2).
  exists s2. split; [eapply steady_trans; eauto |].
  destruct (find _ rows) as [row |]; [| reflexivity].
  destruct (b64decode (payload_data row)) as [b |]; [| reflexivity].
  destruct (FromString b); reflexivity.
Qed.

(** What the [try] block of [decode] returns was stored under the
    identifier. *)
Lemma fetch_payload_found self pid s x s' :
  fetch_payload self pid s = (Ok (Some x), s') ->
  exists row b,
    In row (visible s) /\ id row = pid
    /\ b64decode (payload_data row) = Some b /\ FromString b = Some x.
Proof.
  unfold Relational.fetch_payload. intros H.
  split_bind H conn s1 E1; [| discriminate].
  apply get_connection_spec in E1 as (Hs & _ & _).
  split_bind H u2 s2 E2; [| discriminate].
  apply keeps_ibm_db_prepare in E2.
  split_bind H res s3 E3; [| discriminate].
  unfold execute_select in E3.
  split_bind E3 u4 s4 E4; [| discriminate].
  apply keeps_driver_call in E4.
  unfold bind at 1, get at 1 in E3.
  destruct (view s4) as [rows |] eqn:Ev; [| discriminate].
  split_bind E3 u5 s5 E5; [| discriminate].
  inversion E3; subst; clear E3.
  destruct (find _ rows) as [row |] eqn:Ef; [| discriminate].
  destruct (b64decode (payload_data row)) as [b |] eqn:Eb; [| discriminate].
  destruct (FromString b) as [y |] eqn:Ey; [| discriminate].
  inversion H; subst; clear H.
  apply find_some in Ef as [Hin Hid]. apply bool_decide_eq_true in Hid.
  exists row, b. repeat split; auto.
  assert (Hvis : visible s = rows).
  { destruct Hs as (_ & Hvis & _). rewrite <- Hvis.
    pose proof (steady_trans _ _ _ E2 E4) as H24.
    unfold visible. now rewrite <- (steady_view _ _ H24), Ev. }
  now rewrite Hvis.
Qed.

(** The loop body of [decode] on a payload tagged [v1]: the stored payload
    when the [try] block finds one, the payload itself otherwise. *)
Lemma rel_decode_payload_token self p s pid :
  bytes_decode (metadata_get p CODEC_KEY) = Ok "v1" ->
  bytes_decode (data p) = Ok pid ->
  decode_payload self p s =
  match fetch_payload self pid s with
  | (Ok (Some new_payload), s') => (Ok new_payload, s')
  | (_, s') => (Ok p, s')
  end.
Proof.
  intros Hv Hid. unfold Relational.decode_payload. unfold_monad.
  rewrite Hv, Hid.
  change (bool_decide ("v1" = "v1")) with true. cbn [negb].
  destruct (fetch_payload self pid s) as [[[x |] | e] s']; reflexivity.
Qed.

Lemma rel_decode_payload_unrecognized self p s v :
  bytes_decode (metadata_get p CODEC_KEY) = Ok v ->
  v <> "v1" ->
  decode_payload self p s = (Ok p, s).
Proof.
  intros Hv Hne. unfold Relational.decode_payload. unfold_monad.
  rewrite Hv. rewrite bool_decide_eq_false_2 by exact Hne. reflexivity.
Qed.

Lemma rel_decode_payload_unmarked self p s :
  metadata p !! CODEC_KEY = None ->
  decode_payload self p s = (Ok p, s).
Proof.
  intros H. apply rel_decode_payload_unrecognized with (v := EmptyString).
  - unfold metadata_get. now rewrite H.
  - discriminate.
Qed.

Lemma rel_decode_payload_illformed_tag self p s :
  bytes_decode (metadata_get p CODEC_KEY) = Err UnicodeDecodeError ->
  decode_payload self p s = (Err UnicodeDecodeError, s).
Proof.
  intros Hv. unfold Relational.decode_payload. unfold_monad. now rewrite Hv.
Qed.

(** The identifier is decoded before the [try] block is entered: a body
    that is not well-formed text makes the loop body raise. *)
Lemma rel_decode_payload_illformed_body self p s :
  bytes_decode (metadata_get p CODEC_KEY) = Ok "v1" ->
  bytes_decode (data p) = Err UnicodeDecodeError ->
  decode_payload self p s = (Err UnicodeDecodeError, s).
Proof.
  intros Hv Hid. unfold Relational.decode_payload. unfold_monad.
  rewrite Hv, Hid. reflexivity.
Qed.

Lemma rel_decode_payload_reads_tag_and_body self p q s :
  metadata p !! CODEC_KEY = metadata q !! CODEC_KEY ->
  data p = data q ->
  (exists s', decode_payload self p s = (Ok p, s')
              /\ decode_payload self q s = (Ok q, s'))
  \/ decode_payload self p s = decode_payload self q s.
Proof.
  intros Hm Hd. unfold Relational.decode_payload, metadata_get. unfold_monad.
  rewrite <- Hm, <- Hd.
  destruct (bytes_decode (default EmptyString (metadata p !! CODEC_KEY))) as [v | e];
    [| now right].
  destruct (bool_decide (v = "v1")); cbn [negb]; [| left; eauto].
  destruct (bytes_decode (data p)) as [pid | e]; [| now right].
  destruct (fetch_payload self pid s) as [[[x |] | e] s']; [now right | |]; left; eauto.
Qed.

(** The loop body of the relational [decode] raises only on ill-formed
    text: with a well-formed version tag and body it returns a payload. *)
Lemma rel_decode_payload_total self p s v pid :
  bytes_decode (metadata_get p CODEC_KEY) = Ok v ->
  bytes_decode (data p) = Ok pid ->
  exists y s', decode_payload self p s = (Ok y, s').
Proof.
  intros Hv Hid. destruct (decide (v = "v1")) as [-> | Hne].
  - rewrite (rel_decode_payload_token self p s pid Hv Hid).
    destruct (fetch_payload self pid s) as [[[x |] | e] s']; eauto.
  - rewrite (rel_decode_payload_unrecognized self p s v Hv Hne). eauto.
Qed.

Lemma rel_decode_total self batch : forall s,
  Forall (fun p => is_Ok (bytes_decode (metadata_get p CODEC_KEY)) = true
                   /\ is_Ok (bytes_decode (data p)) = true) batch ->
  exists outs s', decode self batch s = (Ok outs, s').
Proof.
  unfold Relational.decode.
  induction batch as [| p batch IH]; intros s Hall.
  - eexists _, _. reflexivity.
  - inversion Hall as [| ? ? [Hv Hid] Hrest]; subst.
    destruct (bytes_decode (metadata_get p CODEC_KEY)) as [v |] eqn:Ev; [| discriminate].
    destruct (bytes_decode (data p)) as [pid |] eqn:Eid; [| discriminate].
    destruct (rel_decode_payload_total self p s v pid Ev Eid) as (y & s1 & E).
    destruct (IH s1 Hrest) as (o & s2 & E2).
    rewrite for_append_cons, E, E2. eauto.
Qed.

Lemma find_app_free (rows : list Row) row :
  (forall r, In r rows -> id r <> id row) ->
  find (fun x => bool_decide (id x = id row)) (rows ++ [row]) = Some row.
Proof.
  induction rows as [| r rows IH]; intros Hfree; cbn.
  - now rewrite bool_decide_eq_true_2.
  - rewrite bool_decide_eq_false_2 by (apply Hfree; now left).
    apply IH. intros r' Hr'. apply Hfree. now right.
Qed.

(** The token that [encode_payload] returns is resolved by the loop body of
    [decode] of the same codec object, in any state in which the object
    still holds its connection and sees the same rows, as long as the store
    answers. *)
Lemma rel_decode_payload_encoded self p s tok s1 s1' :
  encode_payload self p s = (Ok tok, s1) ->
  table s1' = table s1 -> txn s1' = txn s1 -> _connection s1' = _connection s1 ->
  faults s1' = [] ->
  exists s2, decode_payload self tok s1' = (Ok p, s2).
Proof using FromString_SerializeToString b64decode_b64encode.
  intros H Ht' Hx' Hc' Hq.
  apply rel_encode_payload_Ok in H as (-> & Ht & Hfree & Hx & [conn Hc]).
  rewrite (rel_decode_payload_token _ _ _ (uuid_str (entropy s (draws s)))).
  2: { now rewrite reference_token_tag. }
  2: { apply bytes_decode_uuid. }
  set (pid := uuid_str (entropy s (draws s))) in *.
  set (row := new_row self pid _ _) in *.
  assert (Hv : view s1' = Some (visible s ++ [row]))
    by (unfold view; rewrite Hx', Hx, Ht'; exact Ht).
  rewrite <- Hc' in Hc.
  destruct (fetch_payload_quiet self pid s1' conn _ Hc Hq Hv) as (s2 & _ & ->).
  change pid with (id row) in Hfree |- *.
  rewrite find_app_free by exact Hfree.
  subst row. cbn [payload_data Relational.new_row].
  rewrite b64decode_b64encode, FromString_SerializeToString. eauto.
Qed.

End RelationalProperties.

(** *** Cleanup *)
Section RelationalCleanup.

Import Relational.

Lemma try_run {A} (c : M State A) s r s' : c s = (r, s') -> try c s = (Ok r, s').
Proof. intros H. unfold try. now rewrite H. Qed.

Lemma create_claim_check_table_quiet cfg s :
  faults s = [] -> exists s', create_claim_check_table cfg s = (Ok tt, s').
Proof.
  intros Hq. unfold create_claim_check_table, ibm_db_connect.
  destruct (driver_call_quiet OpConnect s Hq) as (s1 & E1 & H1).
  pose proof (steady_quiet _ _ H1 Hq) as Hq1.
  rewrite (bind_Ok _ _ _ _ _
             (try_run _ _ _ _ (bind_Ok _ _ _ _ _ E1))).
  destruct (driver_call_quiet OpExecImmediate s1 Hq1) as (s2 & E2 & H2).
  pose proof (steady_quiet _ _ H2 Hq1) as Hq2.
  destruct (driver_call_quiet OpExecImmediate s2 Hq2) as (s3 & E3 & H3).
  pose proof (steady_quiet _ _ H3 Hq2) as Hq3.
  destruct (driver_call_quiet OpExecImmediate s3 Hq3) as (s4 & E4 & H4).
  pose proof (steady_quiet _ _ H4 Hq3) as Hq4.
  destruct (driver_call_quiet OpCommit s4 Hq4) as (s5 & E5 & H5).
  pose proof (steady_quiet _ _ H5 Hq4) as Hq5.
  match goal with
  | |- context [try ?blk] =>
      assert (Eb : exists s6, blk s1 = (Ok tt, s6) /\ faults s6 = [])
  end.
  { rewrite (bind_Ok _ _ _ _ _ E2).
    rewrite (bind_Ok _ _ _ _ _ (try_run _ _ _ _ E3)).
    rewrite (bind_Ok _ _ _ _ _ (try_run _ _ _ _ E4)).
    rewrite (bind_Ok _ _ _ _ _ E5).
    unfold modify. eexists. split; [reflexivity |].
    destruct (table s5); exact Hq5. }
  destruct Eb as (s6 & Eb & Hq6).
  rewrite (bind_Ok _ _ _ _ _ (try_run _ _ _ _ Eb)).
  destruct (driver_call_quiet OpClose s6 Hq6) as (s7 & E7 & _).
  eauto.
Qed.

Lemma get_connection_quiet self s :
  faults s = [] ->
  exists conn s1,
    _get_connection self s = (Ok conn, s1)
    /\ settled s s1 /\ _connection s1 = Some conn /\ faults s1 = [].
Proof.
  intros Hq.
  destruct (_get_connection self s) as [r s1] eqn:E.
  destruct (get_connection_spec _ _ _ _ E) as (Hs & Hc & _).
  assert (Hq1 : faults s1 = []).
  { destruct Hs as (_&_&_&_&_&_&_&_&_&Hf&_). auto. }
  destruct r as [conn | e]; [exists conn, s1; auto |].
  exfalso. revert E. unfold _get_connection.
  unfold bind at 1. unfold get at 1.
  destruct (_connection s) as [c0 |]; [discriminate |].
  unfold ibm_db_connect.
  destruct (driver_call_quiet OpConnect s Hq) as (sa & Ea & Ha).
  pose proof (steady_quiet _ _ Ha Hq) as Hqa.
  match goal with
  | |- bind (try ?blk) _ _ = _ -> _ =>
      assert (Eb : exists c sb, blk s = (Ok c, sb))
  end.
  { rewrite (bind_Ok _ _ _ _ _ (bind_Ok _ _ _ _ _ Ea)).
    unfold ret at 1. unfold bind at 1, modify at 1.
    unfold bind at 1, get at 1.
    destruct (negb (_initialized (set_connection _ sa))).
    - destruct (create_claim_check_table_quiet (config self)
                  (set_connection (Some (Connection (get_connection_string (config self)))) sa))
        as (sc & Ec); [exact Hqa |].
      rewrite (bind_Ok _ _ _ _ _ (bind_Ok _ _ _ _ _ Ec)).
      eexists _, _. reflexivity.
    - eexists _, _. reflexivity. }
  destruct Eb as (c & sb & Eb).
  rewrite (bind_Ok _ _ _ _ _ (try_run _ _ _ _ Eb)). discriminate.
Qed.

Lemma execute_delete_quiet cond s rows :
  faults s = [] -> view s = Some rows ->
  exists n s',
    execute_delete cond s = (Ok n, s')
    /\ txn s' = Some (List.filter (fun x => negb (cond x)) rows)
    /\ faults s' = [].
Proof.
  intros Hq Hv. unfold execute_delete.
  destruct (driver_call_quiet OpExecute s Hq) as (s1 & E1 & H1).
  pose proof (steady_quiet _ _ H1 Hq) as Hq1.
  rewrite (bind_Ok _ _ _ _ _ E1). unfold bind at 1, get at 1.
  rewrite (steady_view _ _ H1), Hv.
  unfold bind at 1, modify at 1.
  set (s2 := set_txn _ s1).
  destruct (driver_call_quiet OpNumRows s2 Hq1) as (s3 & E3 & H3).
  rewrite (bind_Ok _ _ _ _ _ E3).
  eexists _, s3. split; [reflexivity |].
  destruct H3 as (_ & Hx & _ & _ & _ & _ & _ & _ & Hf & _).
  split; [exact Hx | exact (Hf Hq1)].
Qed.

Lemma execute_delete_missing cond s :
  faults s = [] -> view s = None ->
  exists s', execute_delete cond s = (Err DriverError, s') /\ steady s s'.
Proof.
  intros Hq Hv. unfold execute_delete.
  destruct (driver_call_quiet OpExecute s Hq) as (s1 & E1 & H1).
  rewrite (bind_Ok _ _ _ _ _ E1). unfold bind at 1, get at 1.
  rewrite (steady_view _ _ H1), Hv. eauto.
Qed.

Lemma ibm_db_commit_quiet conn s rows :
  faults s = [] -> txn s = Some rows ->
  exists s', ibm_db_commit conn s = (Ok tt, s')
             /\ table s' = Some rows /\ txn s' = None.
Proof.
  intros Hq Hx. unfold ibm_db_commit.
  destruct (driver_call_quiet OpCommit s Hq) as (s1 & E1 & H1).
  rewrite (bind_Ok _ _ _ _ _ E1). unfold modify.
  eexists. split; [reflexivity |].
  destruct H1 as (_ & Hx1 & _). rewrite Hx1, Hx. split; reflexivity.
Qed.

Lemma execute_insert_quiet row s rows :
  faults s = [] -> view s = Some rows ->
  (forall r, In r rows -> id r <> id row) ->
  exists s',
    execute_insert row s = (Ok tt, s')
    /\ txn s' = Some (rows ++ [row]) /\ faults s' = [].
Proof.
  intros Hq Hv Hfree. unfold execute_insert.
  destruct (driver_call_quiet OpExecute s Hq) as (s1 & E1 & H1).
  rewrite (bind_Ok _ _ _ _ _ E1). unfold bind at 1, get at 1.
  rewrite (steady_view _ _ H1), Hv.
  assert (Hex : existsb (fun x => bool_decide (id x = id row)) rows = false).
  { apply not_true_is_false. intros Hex.
    apply existsb_exists in Hex as (r & Hin & Hid).
    apply bool_decide_eq_true in Hid. exact (Hfree r Hin Hid). }
  rewrite Hex. unfold modify. eexists. split; [reflexivity |].
  split; [reflexivity | exact (steady_quiet _ _ H1 Hq)].
Qed.

Lemma insert_and_commit_quiet conn row s rows :
  faults s = [] -> view s = Some rows ->
  (forall r, In r rows -> id r <> id row) ->
  exists s', insert_and_commit conn row s = (Ok tt, s') /\ faults s' = [].
Proof.
  intros Hq Hv Hfree. unfold insert_and_commit.
  destruct (ibm_db_prepare_quiet 5 s Hq) as (s1 & E1 & H1).
  rewrite (bind_Ok _ _ _ _ _ E1).
  destruct (execute_insert_quiet row s1 rows) as (s2 & E2 & Hx2 & Hq2);
    [exact (steady_quiet _ _ H1 Hq) | now rewrite (steady_view _ _ H1) | exact Hfree |].
  rewrite (bind_Ok _ _ _ _ _ E2).
  unfold ibm_db_commit.
  destruct (driver_call_quiet OpCommit s2 Hq2) as (s3 & E3 & H3).
  rewrite (bind_Ok _ _ _ _ _ E3). unfold modify.
  eexists. split; [reflexivity |].
  pose proof (steady_quiet _ _ H3 Hq2) as Hq3.
  destruct (txn s3); exact Hq3.
Qed.

Lemma cleanup_condition_spec wf run r :
  cleanup_condition wf run r = true <->
  workflow_id r = wf
  /\ match run with
     | Some (String c x) => workflow_run_id r = Some (String c x)
     | _ => True
     end.
Proof.
  unfold cleanup_condition, where_workflow_and_run, where_workflow.
  destruct run as [[| c x] |]; cbn [truthy default from_option Datatypes.id].
  - rewrite bool_decide_eq_true. tauto.
  - rewrite andb_true_iff, bool_decide_eq_true.
    destruct (workflow_run_id r) as [y |].
    + rewrite bool_decide_eq_true. split; intros [H1 H2]; split; congruence.
    + split; intros [H1 H2]; discriminate.
  - rewrite bool_decide_eq_true. tauto.
Qed.

(** C9, as the code has it. When the store answers, owner-scoped cleanup
    deletes exactly the rows that its condition selects and commits: with a
    non-empty secondary id, the rows that match both ids; with the
    secondary id omitted or empty, every row of the primary id.  Rows of
    other owners stay. *)
Theorem cleanup_deletes_selected_rows self wf run s :
  faults s = [] ->
  exists s',
    cleanup_workflow_payloads self wf run s = (Ok tt, s')
    /\ visible s' = List.filter (fun r => negb (cleanup_condition wf run r)) (visible s)
    /\ txn s' = None
    /\ (forall r, In r (visible s) -> workflow_id r <> wf -> In r (visible s'))
    /\ (forall r, cleanup_condition wf run r = true <->
                  workflow_id r = wf
                  /\ match run with
                     | Some (String c x) => workflow_run_id r = Some (String c x)
                     | _ => True
                     end).
Proof.
  intros Hq.
  assert (Hmain : exists s',
    cleanup_workflow_payloads self wf run s = (Ok tt, s')
    /\ visible s' = List.filter (fun r => negb (cleanup_condition wf run r)) (visible s)
    /\ txn s' = None).
  { unfold cleanup_workflow_payloads.
    destruct (get_connection_quiet self s Hq) as (conn & s1 & Ec & Hs & _ & Hq1).
    rewrite (bind_Ok _ _ _ _ _ (try_run _ _ _ _ Ec)).
    assert (Hvis : visible s1 = visible s) by (destruct Hs as (_ & Hvis & _); exact Hvis).
    fold (cleanup_condition wf run). rewrite <- Hvis. clear Ec Hs Hvis Hq s.
    assert (Ep : exists s2,
      (if truthy run
       then let* _ := ibm_db_prepare 2 in
            ret (where_workflow_and_run wf (default EmptyString run))
       else let* _ := ibm_db_prepare 1 in ret (where_workflow wf)) s1
      = (Ok (cleanup_condition wf run), s2) /\ steady s1 s2).
    { unfold cleanup_condition. destruct (truthy run).
      - destruct (ibm_db_prepare_quiet 2 s1 Hq1) as (s2 & E2 & H2).
        exists s2. now rewrite (bind_Ok _ _ _ _ _ E2).
      - destruct (ibm_db_prepare_quiet 1 s1 Hq1) as (s2 & E2 & H2).
        exists s2. now rewrite (bind_Ok _ _ _ _ _ E2). }
    destruct Ep as (s2 & Ep & H2).
    pose proof (steady_quiet _ _ H2 Hq1) as Hq2.
    set (cond := cleanup_condition wf run) in *.
    destruct (view s2) as [rows |] eqn:Ev.
    - (* the table exists: the rows are deleted and the deletion committed *)
      destruct (execute_delete_quiet cond s2 rows Hq2 Ev) as (n & s3 & E3 & Hx3 & Hq3).
      destruct (ibm_db_commit_quiet conn s3 _ Hq3 Hx3) as (s4 & E4 & Ht4 & Hx4).
      match goal with
      | |- context [try ?blk] => assert (Eb : blk s1 = (Ok tt, s4))
      end.
      { rewrite (bind_Ok _ _ _ _ _ Ep), (bind_Ok _ _ _ _ _ E3). exact E4. }
      rewrite (bind_Ok _ _ _ _ _ (try_run _ _ _ _ Eb)).
      exists s4. split; [reflexivity |]. split; [| exact Hx4].
      unfold visible at 2. rewrite <- (steady_view _ _ H2), Ev.
      unfold visible, view. rewrite Hx4, Ht4. reflexivity.
    - (* the table is missing: the statement raises and is rolled back *)
      destruct (execute_delete_missing cond s2 Hq2 Ev) as (s3 & E3 & H3).
      pose proof (steady_quiet _ _ H3 Hq2) as Hq3.
      match goal with
      | |- context [try ?blk] => assert (Eb : blk s1 = (Err DriverError, s3))
      end.
      { rewrite (bind_Ok _ _ _ _ _ Ep). now rewrite (bind_Err _ _ _ _ _ E3). }
      rewrite (bind_Ok _ _ _ _ _ (try_run _ _ _ _ Eb)).
      unfold ibm_db_rollback.
      destruct (driver_call_quiet OpRollback s3 Hq3) as (s4 & E4 & H4).
      rewrite (bind_Ok _ _ _ _ _ E4). unfold modify.
      eexists. split; [reflexivity |].
      pose proof (steady_trans _ _ _ H2 (steady_trans _ _ _ H3 H4)) as H14.
      assert (Hv1 : view s1 = None) by (now rewrite <- (steady_view _ _ H2)).
      unfold view in Hv1. destruct (txn s1) eqn:Hx1; [discriminate |].
      destruct H14 as (Ht & _).
      unfold visible, view. cbn. rewrite Ht, Hx1, Hv1. split; reflexivity. }
  destruct Hmain as (s' & E & Hv & Hx).
  exists s'. split; [exact E |]. split; [exact Hv |]. split; [exact Hx |].
  split; [| intros r; apply cleanup_condition_spec].
  intros r Hin Hne. rewrite Hv. apply filter_In. split; [exact Hin |].
  apply negb_true_iff. apply not_true_is_false. intros Hc.
  apply cleanup_condition_spec in Hc as [Hw _]. contradiction.
Qed.

End RelationalCleanup.

(** When the store answers, the table exists and the identifier drawn is
    free, [encode_payload] of the relational codec returns. *)
Lemma rel_encode_payload_quiet
  (SerializeToString : Payload -> bytes) (b64encode_str : bytes -> str)
  self p s rows :
  Relational.faults s = [] ->
  Relational.view s = Some rows ->
  (forall r, In r rows ->
             Relational.id r <> uuid_str (Relational.entropy s (Relational.draws s))) ->
  exists tok s',
    Relational.encode_payload SerializeToString b64encode_str self p s = (Ok tok, s')
    /\ Relational.faults s' = [].
Proof.
  intros Hq Hv Hfree.
  rewrite rel_encode_payload_steps. cbv zeta.
  set (s0 := Relational.set_draws _ s).
  destruct (get_connection_quiet self s0 Hq) as (conn & s1 & Ec & Hs & _ & Hq1).
  rewrite Ec.
  destruct Hs as (_ & _ & _ & Hview & _).
  destruct (insert_and_commit_quiet conn
              (Relational.new_row b64encode_str self
                 (uuid_str (Relational.entropy s (Relational.draws s)))
                 (SerializeToString p) s0) s1 rows Hq1 (Hview rows Hv) Hfree)
    as (s2 & Ei & Hq2).
  rewrite Ei. eauto.
Qed.

(** *** The loop of [encode] *)

Lemma advance_fields s :
  Relational._connection (Relational.advance s) = Relational._connection s
  /\ Relational._initialized (Relational.advance s) = Relational._initialized s
  /\ Relational.table (Relational.advance s) = Relational.table s
  /\ Relational.txn (Relational.advance s) = Relational.txn s
  /\ Relational.faults (Relational.advance s) = Relational.faults s
  /\ Relational.trace (Relational.advance s) = Relational.trace s
  /\ Relational.draws (Relational.advance s) = Relational.draws s
  /\ Relational.entropy (Relational.advance s) = Relational.entropy s
  /\ Relational.workflow_info (Relational.advance s) = Relational.workflow_info s.
Proof. unfold Relational.advance. destruct (Relational.ticks s); cbn; auto 10. Qed.

(** One turn of the loop: the payload is encoded, then the clock moves on. *)
Lemma rel_encode_cons
  (SerializeToString : Payload -> bytes) (b64encode_str : bytes -> str)
  self p ps s :
  Relational.encode SerializeToString b64encode_str self (p :: ps) s =
  match Relational.encode_payload SerializeToString b64encode_str self p s with
  | (Ok tok, s1) =>
      match Relational.encode SerializeToString b64encode_str self ps
              (Relational.advance s1) with
      | (Ok o, s2) => (Ok (tok :: o), s2)
      | (Err e, s2) => (Err e, s2)
      end
  | (Err e, s1) => (Err e, s1)
  end.
Proof.
  unfold Relational.encode. rewrite for_append_cons. unfold bind at 1.
  destruct (Relational.encode_payload _ _ self p s) as [[tok | e] s1]; reflexivity.
Qed.

Lemma rel_encode_singleton
  (SerializeToString : Payload -> bytes) (b64encode_str : bytes -> str)
  self p s outs s' :
  Relational.encode SerializeToString b64encode_str self [p] s = (Ok outs, s') ->
  exists tok s1,
    outs = [tok] /\ s' = Relational.advance s1
    /\ Relational.encode_payload SerializeToString b64encode_str self p s = (Ok tok, s1).
Proof.
  rewrite rel_encode_cons.
  destruct (Relational.encode_payload _ _ self p s) as [[tok | e] s1]; [| discriminate].
  cbn. intros H. inversion H; subst. eauto.
Qed.

(** * The claims of the specification *)
Section Claims.

Variable SerializeToString : Payload -> bytes.
Variable FromString : bytes -> option Payload.
Variable gzip_compress : Z -> bytes -> bytes.
Variable gzip_decompress : bytes -> option bytes.
Variable b64encode_str : bytes -> str.
Variable b64decode : str -> option bytes.

Hypothesis FromString_SerializeToString :
  forall p, FromString (SerializeToString p) = Some p.
Hypothesis gzip_decompress_compress :
  forall t b, gzip_decompress (gzip_compress t b) = Some b.
Hypothesis b64decode_b64encode :
  forall b, b64decode (b64encode_str b) = Some b.

Local Abbreviation cache_encode := (Cache.encode SerializeToString gzip_compress).
Local Abbreviation cache_decode := (Cache.decode FromString gzip_decompress).
Local Abbreviation rel_encode := (Relational.encode SerializeToString b64encode_str).
Local Abbreviation rel_encode_payload :=
  (Relational.encode_payload SerializeToString b64encode_str).
Local Abbreviation rel_decode := (Relational.decode FromString b64decode).
Local Abbreviation rel_fetch_payload := (Relational.fetch_payload FromString b64decode).

(** C1. For every payload [P], decoding what [encode] returned for the
    batch [[P]] gives back [[P]], metadata and body, in the cache-backed
    codec whether the payload was compressed or not, and in the relational
    codec, when the store answers the reads of [decode].  And [encode] does
    return when the store answers: always in the cache-backed codec, and in
    the relational codec when the expiry of the row can be formed
    ([ttl_hours] hours from now is a date of the years 1 to 9999), the table
    exists and the identifier drawn is free. *)
Theorem decode_encode_singleton (P : Payload) :
  (forall self w toks w1,
      cache_encode self [P] w = (Ok toks, w1) ->
      Cache.faults w1 = [] ->
      cache_decode self toks w1 = (Ok [P], w1))
  /\ (forall self s toks s1,
         rel_encode self [P] s = (Ok toks, s1) ->
         Relational.faults s1 = [] ->
         exists s2, rel_decode self toks s1 = (Ok [P], s2))
  /\ (forall self w,
         Cache.faults w = [] ->
         exists toks w1, cache_encode self [P] w = (Ok toks, w1)
                         /\ Cache.faults w1 = [])
  /\ (forall self s rows,
         Relational.expiry_representable (Relational.now s)
           (Relational.ttl_hours self) = true ->
         Relational.faults s = [] ->
         Relational.view s = Some rows ->
         (forall r, In r rows ->
                    Relational.id r
                    <> uuid_str (Relational.entropy s (Relational.draws s))) ->
         exists toks s1, rel_encode self [P] s = (Ok toks, s1)
                         /\ Relational.faults s1 = []).
Proof using FromString_SerializeToString gzip_decompress_compress b64decode_b64encode.
  split; [| split; [| split]]; cycle 2.
  { intros self w Hq.
    destruct (cache_encode_payload_quiet SerializeToString gzip_compress self P w Hq)
      as (tok & w1 & E & Hq1).
    exists [tok], w1. unfold Cache.encode. cbn [for_append]. now rewrite E. }
  { intros self s rows _ Hq Hv Hfree.
    destruct (rel_encode_payload_quiet SerializeToString b64encode_str
                self P s rows Hq Hv Hfree) as (tok & s1 & E & Hq1).
    exists [tok], (Relational.advance s1).
    rewrite rel_encode_cons, E. split; [reflexivity |].
    destruct (advance_fields s1) as (_ & _ & _ & _ & -> & _). exact Hq1. }
  - intros self w toks w1 H Hq.
    apply for_append_singleton in H as (tok & -> & H).
    unfold Cache.decode. rewrite for_append_cons.
    rewrite (cache_decode_payload_encoded _ _ _ _
               FromString_SerializeToString gzip_decompress_compress
               self self P w tok w1 H Hq).
    reflexivity.
  - intros self s toks s1 H Hq.
    apply rel_encode_singleton in H as (tok & s0 & -> & -> & H).
    destruct (advance_fields s0) as (Hc & _ & Ht & Hx & _).
    destruct (rel_decode_payload_encoded _ _ _ _
                FromString_SerializeToString b64decode_b64encode
                self P s tok s0 _ H Ht Hx Hc Hq) as (s2 & E).
    exists s2. unfold Relational.decode. rewrite for_append_cons, E. reflexivity.
Qed.

(** C2. When the blob of a claim-checked payload of the batch is missing, or
    the access to the store raises, [decode] of the relational codec puts
    the reference token itself at that position and goes on with the rest
    of the batch, whereas [decode] of the cache-backed codec raises.  A
    claim-checked payload is a reference token: its version tag is one the
    codec accepts and its body is the text of an identifier. *)
Theorem decode_missing_blob_per_backend :
  (forall self pre p post s o1 s1 pid,
      rel_decode self pre s = (Ok o1, s1) ->
      bytes_decode (metadata_get p CODEC_KEY) = Ok "v1" ->
      bytes_decode (data p) = Ok pid ->
      (forall r, In r (Relational.visible s1) -> Relational.id r <> pid)
      \/ (exists e, (rel_fetch_payload self pid s1).1 = Err e) ->
      rel_decode self (pre ++ p :: post) s =
      match rel_decode self post (rel_fetch_payload self pid s1).2 with
      | (Ok o2, s3) => (Ok (o1 ++ p :: o2), s3)
      | (Err e, s3) => (Err e, s3)
      end)
  /\ (forall self pre p post w o1 w1 v rid,
         cache_decode self pre w = (Ok o1, w1) ->
         bytes_decode (metadata_get p CODEC_KEY) = Ok v ->
         Cache.accepted v = true ->
         bytes_decode (data p) = Ok rid ->
         Cache.live w1 rid = None \/ head (Cache.faults w1) = Some true ->
         exists e w2, cache_decode self (pre ++ p :: post) w = (Err e, w2)).
Proof.
  split.
  - intros self pre p post s o1 s1 pid Hpre Hv Hid Hmiss.
    unfold Relational.decode in *.
    rewrite for_append_app, Hpre, for_append_cons.
    rewrite (rel_decode_payload_token _ _ self p s1 pid Hv Hid).
    destruct (rel_fetch_payload self pid s1) as [[[x |] | e] s2] eqn:Ef;
      cbn [fst snd];
      try (destruct (for_append _ post [] s2) as [[o2 | e2] s3]; reflexivity).
    exfalso. destruct Hmiss as [Hfree | [e He]]; [| discriminate].
    apply fetch_payload_found in Ef as (row & b & Hin & Hrid & _).
    exact (Hfree row Hin Hrid).
  - intros self pre p post w o1 w1 v rid Hpre Hv Ha Hid Hmiss.
    unfold Cache.decode in *.
    rewrite for_append_app, Hpre, for_append_cons.
    destruct (cache_decode_payload_fetch_fails FromString gzip_decompress
                self p w1 v rid Hv Ha Hid Hmiss) as (e & w2 & ->).
    eauto.
Qed.

(** C4. A payload without the claim-check version key in its metadata comes
    out of [decode] of either codec unchanged and at its position, whatever
    the other payloads of the batch are; a batch of such payloads is
    returned as it is, and the store is not contacted. *)
Theorem decode_passes_unmarked_payloads :
  (forall self batch w outs w',
      cache_decode self batch w = (Ok outs, w') ->
      length outs = length batch
      /\ forall i p, batch !! i = Some p -> metadata p !! CODEC_KEY = None ->
                     outs !! i = Some p)
  /\ (forall self batch w,
         Forall (fun p => metadata p !! CODEC_KEY = None) batch ->
         cache_decode self batch w = (Ok batch, w))
  /\ (forall self batch s outs s',
         rel_decode self batch s = (Ok outs, s') ->
         length outs = length batch
         /\ forall i p, batch !! i = Some p -> metadata p !! CODEC_KEY = None ->
                        outs !! i = Some p)
  /\ (forall self batch s,
         Forall (fun p => metadata p !! CODEC_KEY = None) batch ->
         rel_decode self batch s = (Ok batch, s)).
Proof.
  repeat split.
  - apply for_append_Forall2 in H. symmetry. eapply Forall2_length; eauto.
  - intros i p Hi Hp. apply for_append_Forall2 in H.
    destruct (Forall2_lookup_l _ _ _ _ _ H Hi) as (y & Hy & s1 & s2 & E).
    rewrite (cache_decode_payload_unmarked _ _ self p s1 Hp) in E.
    inversion E; subst. exact Hy.
  - intros self batch w Hall. apply for_append_id.
    eapply Forall_impl; [exact Hall |].
    intros p Hp. now apply cache_decode_payload_unmarked.
  - apply for_append_Forall2 in H. symmetry. eapply Forall2_length; eauto.
  - intros i p Hi Hp. apply for_append_Forall2 in H.
    destruct (Forall2_lookup_l _ _ _ _ _ H Hi) as (y & Hy & s1 & s2 & E).
    rewrite (rel_decode_payload_unmarked _ _ self p s1 Hp) in E.
    inversion E; subst. exact Hy.
  - intros self batch w Hall. apply for_append_id.
    eapply Forall_impl; [exact Hall |].
    intros p Hp. now apply rel_decode_payload_unmarked.
Qed.


(** The part of C10 that the code meets. [decode] of either codec looks at
    the version key only: payloads whose version tag is missing, or is
    well-formed text outside the accepted set ([v1] and [v1c] for the
    cache-backed codec, [v1] for the relational one), are returned unchanged
    without any access to the store, whether or not they carry the
    claim-check encoding; and two payloads with the same version tag and
    body are treated alike whatever the rest of their metadata says. *)
Lemma decode_reads_version_tag_only :
  (forall self batch w,
      Forall (fun p => exists v, bytes_decode (metadata_get p CODEC_KEY) = Ok v
                                 /\ Cache.accepted v = false) batch ->
      cache_decode self batch w = (Ok batch, w))
  /\ (forall self batch s,
         Forall (fun p => exists v, bytes_decode (metadata_get p CODEC_KEY) = Ok v
                                    /\ v <> "v1") batch ->
         rel_decode self batch s = (Ok batch, s))
  /\ (forall self p q w,
         metadata p !! CODEC_KEY = metadata q !! CODEC_KEY -> data p = data q ->
         (exists w', cache_decode self [p] w = (Ok [p], w')
                     /\ cache_decode self [q] w = (Ok [q], w'))
         \/ cache_decode self [p] w = cache_decode self [q] w)
  /\ (forall self p q s,
         metadata p !! CODEC_KEY = metadata q !! CODEC_KEY -> data p = data q ->
         (exists s', rel_decode self [p] s = (Ok [p], s')
                     /\ rel_decode self [q] s = (Ok [q], s'))
         \/ rel_decode self [p] s = rel_decode self [q] s).
Proof.
  split; [| split; [| split]].
  - intros self batch w Hall. apply for_append_id.
    eapply Forall_impl; [exact Hall |].
    intros p (v & Hv & Ha). eapply cache_decode_payload_unrecognized; eauto.
  - intros self batch s Hall. apply for_append_id.
    eapply Forall_impl; [exact Hall |].
    intros p (v & Hv & Ha). eapply rel_decode_payload_unrecognized; eauto.
  - intros self p q w Hm Hd. unfold Cache.decode. rewrite !for_append_cons.
    destruct (cache_decode_payload_reads_tag_and_body FromString gzip_decompress
                self p q w Hm Hd) as [(w' & -> & ->) | ->].
    + left. exists w'. split; reflexivity.
    + destruct (Cache.decode_payload _ _ self q w) as [[y | e] w']; now right.
  - intros self p q s Hm Hd. unfold Relational.decode. rewrite !for_append_cons.
    destruct (rel_decode_payload_reads_tag_and_body FromString b64decode
                self p q s Hm Hd) as [(s' & -> & ->) | ->].
    + left. exists s'. split; reflexivity.
    + destruct (Relational.decode_payload _ _ self q s) as [[y | e] s']; now right.
Qed.

End Claims.

(** ** The adapters and the codec server *)

(** The keyword call that the relational adapter makes is accepted and
    builds the codec from the adapter's fields. *)
Lemma relational_init_from_plugin env cfg ttl :
  Relational.__init__ env [("config", VConfig cfg); ("ttl_hours", VInt ttl)]
  = Ok (Relational.mkCodec cfg ttl).
Proof.
  unfold Relational.__init__.
  replace (check_keywords _ _) with (Ok tt : result unit) by (vm_compute; reflexivity).
  replace (kwarg "config" _) with (Some (VConfig cfg)) by reflexivity.
  replace (kwarg "ttl_hours" _) with (Some (VInt ttl)) by reflexivity.
  reflexivity.
Qed.

(** The relational adapter installs its codec exactly when claim check is
    enabled, and keeps the payload converter class of the configuration. *)
Lemma relational_plugin_configure_client env self next config :
  RelationalPlugin.configure_client env self next config =
  next (set_data_converter
          (DataConverter_new (payload_converter_class (data_converter config))
             (if RelationalPlugin.useClaimCheck self
              then Some (RelationalCodec
                           (Relational.mkCodec (RelationalPlugin.db2_config self)
                              (RelationalPlugin.ttl_hours self)))
              else None))
          config).
Proof.
  unfold RelationalPlugin.configure_client, RelationalPlugin.get_data_converter.
  destruct (RelationalPlugin.useClaimCheck self); [| reflexivity].
  now rewrite relational_init_from_plugin.
Qed.

(** [get_data_converter] of the cache-backed adapter does the same. *)
Lemma cache_plugin_get_data_converter self config :
  CachePlugin.get_data_converter self config =
  DataConverter_new (payload_converter_class (data_converter config))
    (if CachePlugin.useClaimCheck self
     then Some (CacheCodec
                  (Cache.mkCodec (CachePlugin.redisHost self) (CachePlugin.redisPort self)
                     (CachePlugin.enableCompression self)
                     (CachePlugin.compressionThreshold self)))
     else None).
Proof.
  unfold CachePlugin.get_data_converter.
  destruct (CachePlugin.useClaimCheck self); reflexivity.
Qed.

(** C7, at the failing input. [configure_client] of the cache-backed adapter
    hands the configuration to the rest of the plugin chain as it received
    it: with claim check enabled and the default data converter coming in,
    the data converter that comes out has no codec, although
    [get_data_converter] builds one. *)
Theorem cache_plugin_configure_client_installs_nothing :
  (forall self next config,
      CachePlugin.configure_client self next config = next config)
  /\ CachePlugin.useClaimCheck Sample.cache_plugin_enabled = true
  /\ CachePlugin.configure_client Sample.cache_plugin_enabled root_plugin
       Sample.default_config = Ok Sample.default_config
  /\ payload_codec (data_converter Sample.default_config) = None
  /\ payload_codec
       (CachePlugin.get_data_converter Sample.cache_plugin_enabled
          Sample.default_config)
     = Some (CacheCodec (Cache.mkCodec "localhost" 6379 true 250)).
Proof. repeat split. Qed.

(** C8, at every input. [build_codec_server] never returns an application:
    when both numbers of the environment parse, the keyword call of the
    codec class is refused with [TypeError], since [__init__] of the
    relational codec has no [enable_compression] and no
    [compression_threshold] parameter; otherwise [int] raises
    [ValueError]. *)
Theorem build_codec_server_always_raises
  (str_to_bool : str -> bool) (py_int : str -> option Z) (env : Env) :
  CodecServer.build_codec_server str_to_bool py_int env =
  match py_int (getenv env "CLAIM_CHECK_TTL_HOURS" "1440"),
        py_int (getenv env "CLAIM_CHECK_COMPRESSION_THRESHOLD" "250") with
  | Some _, Some _ => Err TypeError
  | _, _ => Err ValueError
  end.
Proof.
  unfold CodecServer.build_codec_server.
  destruct (py_int (getenv env "CLAIM_CHECK_TTL_HOURS" "1440")) as [ttl |];
    [| reflexivity].
  destruct (py_int (getenv env "CLAIM_CHECK_COMPRESSION_THRESHOLD" "250")) as [thr |];
    [| reflexivity].
  unfold Relational.__init__.
  replace (check_keywords _ _) with (Err TypeError : result unit)
    by (vm_compute; reflexivity).
  reflexivity.
Qed.

(** * The claims on sample inputs *)

(** C6, as stated, fails: the entry that [encode_payload] of the
    cache-backed codec writes for the sample payload has no expiry, and no
    lapse of time makes it unreadable. *)
Lemma cache_write_has_ttl_counterexample :
  exists tok w',
    Cache.encode_payload Wire.SerializeToString Wire.gzip_compress
      Sample.cache_codec Sample.plain Sample.cache_world = (Ok tok, w')
    /\ (Cache.expire_at <$> Cache.kv w' !! data tok) = Some None
    /\ ~ (exists ttl, forall d, ttl <= d ->
                                Cache.live (Cache.elapse d w') (data tok) = None).
Proof.
  eexists _, _. split; [vm_compute; reflexivity |].
  split; [vm_compute; reflexivity |].
  intros [ttl H]. specialize (H ttl (Z.le_refl ttl)).
  vm_compute in H. discriminate.
Qed.

(** C9, as stated, fails: with the empty string supplied as secondary id,
    cleanup of [wf-1] also deletes the row of the run [run-1], which does
    not match that secondary id. *)
Lemma cleanup_with_empty_run_id_counterexample :
  exists s',
    Relational.cleanup_workflow_payloads Sample.rel_codec "wf-1" (Some EmptyString)
      Sample.rel_state_rows = (Ok tt, s')
    /\ In Sample.row_run1 (Relational.visible Sample.rel_state_rows)
    /\ Relational.workflow_run_id Sample.row_run1 <> Some EmptyString
    /\ Relational.visible s' = [Sample.row_other].
Proof.
  eexists. split; [vm_compute; reflexivity |].
  split; [now left |]. split; [discriminate | reflexivity].
Qed.

(** C10, at the failing input. A payload with the claim-check encoding
    whose version tag is the single byte 0xFF, a value outside the accepted
    set of either codec, is not passed through: [bytes.decode] raises
    [UnicodeDecodeError] before the tag is compared, and so does [decode]
    of either codec, without any access to the store. *)
Theorem decode_illformed_version_tag_raises :
  metadata Sample.bad_tag !! ENCODING_KEY = Some "claim-checked"
  /\ Cache.accepted (metadata_get Sample.bad_tag CODEC_KEY) = false
  /\ Cache.decode Wire.FromString Wire.gzip_decompress Sample.cache_codec
       [Sample.bad_tag] Sample.cache_world
     = (Err UnicodeDecodeError, Sample.cache_world)
  /\ Relational.decode Wire.FromString Wire.b64decode Sample.rel_codec
       [Sample.bad_tag] Sample.rel_state_rows
     = (Err UnicodeDecodeError, Sample.rel_state_rows).
Proof. repeat split; vm_compute; reflexivity. Qed.

(** C1 on the sample payload: the cache-backed codec, below the threshold
    and above it, the relational codec starting without a connection, and
    [encode] of the relational codec returning in front of a table with
    three rows. *)
Lemma decode_encode_singleton_witness :
  (exists toks w1,
      Cache.encode Wire.SerializeToString Wire.gzip_compress Sample.cache_codec
        [Sample.plain] Sample.cache_world = (Ok toks, w1)
      /\ Cache.decode Wire.FromString Wire.gzip_decompress Sample.cache_codec
           toks w1 = (Ok [Sample.plain], w1))
  /\ (exists toks w1,
         Cache.encode Wire.SerializeToString Wire.gzip_compress Sample.cache_codec_low
           [Sample.plain] Sample.cache_world = (Ok toks, w1)
         /\ Cache.decode Wire.FromString Wire.gzip_decompress Sample.cache_codec_low
              toks w1 = (Ok [Sample.plain], w1))
  /\ (exists toks s1 s2,
         Relational.encode Wire.SerializeToString Wire.b64encode_str Sample.rel_codec
           [Sample.plain] (Sample.rel_state []) = (Ok toks, s1)
         /\ Relational.decode Wire.FromString Wire.b64decode Sample.rel_codec
              toks s1 = (Ok [Sample.plain], s2))
  /\ (exists toks s1,
         Relational.encode Wire.SerializeToString Wire.b64encode_str Sample.rel_codec
           [Sample.plain] Sample.rel_state_rows = (Ok toks, s1)
         /\ Relational.faults s1 = []).
Proof.
  destruct (decode_encode_singleton
              Wire.SerializeToString Wire.FromString
              Wire.gzip_compress Wire.gzip_decompress
              Wire.b64encode_str Wire.b64decode
              Wire_FromString_SerializeToString Wire_gzip_decompress_compress
              Wire_b64decode_b64encode Sample.plain) as (Hcache & Hrel & _ & Hret).
  split; [| split; [| split]]; cycle 3.
  { apply (Hret Sample.rel_codec Sample.rel_state_rows
             [Sample.row_run1; Sample.row_norun; Sample.row_other]);
      [vm_compute; reflexivity | reflexivity | reflexivity |].
    intros r [<- | [<- | [<- | []]]]; vm_compute; discriminate. }
  - eexists _, _. split; [vm_compute; reflexivity |].
    apply (Hcache Sample.cache_codec Sample.cache_world); vm_compute; reflexivity.
  - eexists _, _. split; [vm_compute; reflexivity |].
    apply (Hcache Sample.cache_codec_low Sample.cache_world); vm_compute; reflexivity.
  - eexists _, _.
    destruct (Hrel Sample.rel_codec (Sample.rel_state [])
                _ _ ltac:(vm_compute; reflexivity) ltac:(vm_compute; reflexivity))
      as [s2 H2].
    exists s2. split; [vm_compute; reflexivity | exact H2].
Defined.

(** C2 on a dangling token: the relational codec returns it in place and
    decodes the payload that follows; the cache-backed codec raises. *)
Lemma decode_missing_blob_per_backend_witness :
  (exists s',
      Relational.decode Wire.FromString Wire.b64decode Sample.rel_codec
        [Sample.dangling; Sample.plain] Sample.rel_state_rows
      = (Ok [Sample.dangling; Sample.plain], s'))
  /\ (exists e w',
         Cache.decode Wire.FromString Wire.gzip_decompress Sample.cache_codec
           [Sample.dangling; Sample.plain] Sample.cache_world = (Err e, w')).
Proof.
  destruct (decode_missing_blob_per_backend
              Wire.FromString Wire.gzip_decompress Wire.b64decode) as [Hrel Hcache].
  split.
  - assert (Hfree : forall r, In r (Relational.visible Sample.rel_state_rows) ->
                              Relational.id r <> "00000000-0000-0000-0000-000000000000").
    { intros r [<- | [<- | [<- | []]]]; discriminate. }
    assert (H := Hrel Sample.rel_codec [] Sample.dangling [Sample.plain]
                   Sample.rel_state_rows [] Sample.rel_state_rows
                   "00000000-0000-0000-0000-000000000000"
                   eq_refl
                   ltac:(vm_compute; reflexivity)
                   ltac:(vm_compute; reflexivity)
                   (or_introl Hfree)).
    cbn [app] in H. eexists. rewrite H. vm_compute. reflexivity.
  - apply (Hcache Sample.cache_codec [] Sample.dangling [Sample.plain]
             Sample.cache_world [] Sample.cache_world "v1"
             "00000000-0000-0000-0000-000000000000").
    + reflexivity.
    + vm_compute. reflexivity.
    + reflexivity.
    + vm_compute. reflexivity.
    + left. vm_compute. reflexivity.
Defined.

(** C3 on the sample payload: tagged [v1] below the threshold of 250 bytes,
    tagged [v1c] and stored compressed at the threshold of 10 bytes. *)
Lemma cache_encode_tag_follows_threshold_witness :
  (exists tok w',
      Cache.encode_payload Wire.SerializeToString Wire.gzip_compress
        Sample.cache_codec Sample.plain Sample.cache_world = (Ok tok, w')
      /\ metadata tok !! CODEC_KEY = Some "v1"
      /\ Cache.value <$> (Cache.kv w' !! data tok)
         = Some (Wire.SerializeToString Sample.plain))
  /\ (exists tok w',
         Cache.encode_payload Wire.SerializeToString Wire.gzip_compress
           Sample.cache_codec_low Sample.plain Sample.cache_world = (Ok tok, w')
         /\ metadata tok !! CODEC_KEY = Some "v1c"
         /\ Cache.value <$> (Cache.kv w' !! data tok)
            = Some (Wire.gzip_compress 1700000000
                      (Wire.SerializeToString Sample.plain))).
Proof.
  split.
  - eexists _, _. split; [vm_compute; reflexivity |].
    destruct (cache_encode_tag_follows_threshold
                Wire.SerializeToString Wire.gzip_compress
                Sample.cache_codec Sample.plain Sample.cache_world _ _
                ltac:(vm_compute; reflexivity)) as (_ & Hbelow & _).
    destruct Hbelow as [Hs Ht]; [vm_compute; reflexivity |].
    split; [exact Ht | exact Hs].
  - eexists _, _. split; [vm_compute; reflexivity |].
    destruct (cache_encode_tag_follows_threshold
                Wire.SerializeToString Wire.gzip_compress
                Sample.cache_codec_low Sample.plain Sample.cache_world _ _
                ltac:(vm_compute; reflexivity)) as (Habove & _ & _).
    destruct Habove as [Hs Ht];
      [reflexivity | vm_compute; discriminate |].
    split; [exact Ht | exact Hs].
Defined.

(** C4 on a batch that mixes a dangling token with an ordinary payload. *)
Lemma decode_passes_unmarked_payloads_witness :
  (exists outs s',
      Relational.decode Wire.FromString Wire.b64decode Sample.rel_codec
        [Sample.dangling; Sample.plain] Sample.rel_state_rows = (Ok outs, s')
      /\ outs !! 1%nat = Some Sample.plain)
  /\ Cache.decode Wire.FromString Wire.gzip_decompress Sample.cache_codec
       [Sample.plain; Sample.plain] Sample.cache_world
     = (Ok [Sample.plain; Sample.plain], Sample.cache_world).
Proof.
  destruct (decode_passes_unmarked_payloads
              Wire.FromString Wire.gzip_decompress Wire.b64decode)
    as (_ & Hcache & Hrel & _).
  split.
  - eexists _, _. split; [vm_compute; reflexivity |].
    refine (proj2 (Hrel Sample.rel_codec [Sample.dangling; Sample.plain]
                     Sample.rel_state_rows _ _ _) 1%nat Sample.plain _ _);
      vm_compute; reflexivity.
  - apply Hcache. repeat constructor.
Defined.


(** C6, as the code has it, on the sample payload. *)
Lemma cache_encode_stores_without_expiry_witness :
  exists tok w' v,
    Cache.encode_payload Wire.SerializeToString Wire.gzip_compress
      Sample.cache_codec Sample.plain Sample.cache_world = (Ok tok, w')
    /\ Cache.kv w' !! data tok = Some (Cache.mkEntry v None)
    /\ forall d, Cache.live (Cache.elapse d w') (data tok) = Some v.
Proof.
  eexists _, _.
  destruct (cache_encode_stores_without_expiry
              Wire.SerializeToString Wire.gzip_compress
              Sample.cache_codec Sample.plain Sample.cache_world _ _
              ltac:(vm_compute; reflexivity)) as (v & Hkv & Hlive).
  exists v. split; [vm_compute; reflexivity |]. split; [exact Hkv | exact Hlive].
Defined.

(** C9, as the code has it, on a table with rows of two workflows: cleanup
    of the run [run-1] of [wf-1] leaves the two other rows. *)
Lemma cleanup_deletes_selected_rows_witness :
  exists s',
    Relational.cleanup_workflow_payloads Sample.rel_codec "wf-1" (Some "run-1")
      Sample.rel_state_rows = (Ok tt, s')
    /\ Relational.visible s' = [Sample.row_norun; Sample.row_other].
Proof.
  destruct (cleanup_deletes_selected_rows Sample.rel_codec "wf-1" (Some "run-1")
              Sample.rel_state_rows eq_refl) as (s' & E & Hv & _).
  exists s'. split; [exact E |]. rewrite Hv. vm_compute. reflexivity.
Defined.

(** A payload with the claim-check encoding and the version tag [v2] goes
    through both codecs. *)
Lemma decode_reads_version_tag_only_sample :
  metadata Sample.unknown_tag !! ENCODING_KEY = Some "claim-checked"
  /\ Cache.decode Wire.FromString Wire.gzip_decompress Sample.cache_codec
       [Sample.unknown_tag] Sample.cache_world
     = (Ok [Sample.unknown_tag], Sample.cache_world)
  /\ Relational.decode Wire.FromString Wire.b64decode Sample.rel_codec
       [Sample.unknown_tag] Sample.rel_state_rows
     = (Ok [Sample.unknown_tag], Sample.rel_state_rows).
Proof.
  destruct (decode_reads_version_tag_only
              Wire.FromString Wire.gzip_decompress Wire.b64decode)
    as (Hcache & Hrel & _).
  split; [vm_compute; reflexivity |]. split.
  - apply Hcache. constructor; [| constructor].
    exists "v2". split; vm_compute; reflexivity.
  - apply Hrel. constructor; [| constructor].
    exists "v2". split; [vm_compute; reflexivity | discriminate].
Defined.

(** * Further properties of the codecs *)

(** ** Frames of the relational codec *)
Section MoreFrames.

Import Relational.

Lemma keeps_lift {A} (R : State -> State -> Prop) (r : result A) :
  (forall s, R s s) -> keeps R (lift r).
Proof. intros Hr s r' s' H. inversion H. apply Hr. Qed.

Lemma keeps_for_append {A B} (R : State -> State -> Prop) (f : A -> M State B) :
  (forall s, R s s) -> (forall s1 s2 s3, R s1 s2 -> R s2 s3 -> R s1 s3) ->
  (forall x, keeps R (f x)) ->
  forall xs out, keeps R (for_append f xs out).
Proof.
  intros Hrefl Htrans Hf xs.
  induction xs as [| x xs IH]; intros out s r s' H; cbn [for_append] in H.
  - inversion H. apply Hrefl.
  - destruct (f x s) as [[y | e] s1] eqn:E.
    + eapply Htrans; [eapply Hf; eauto | eapply IH; eauto].
    + inversion H; subst. eapply Hf; eauto.
Qed.

Lemma keeps_get_connection self : keeps settled (_get_connection self).
Proof. intros s r s' H. now apply get_connection_spec in H. Qed.

Lemma keeps_execute_select pid : keeps steady (execute_select pid).
Proof.
  unfold execute_select.
  apply keeps_bind; [exact steady_trans | apply keeps_driver_call |].
  intros _. apply keeps_bind; [exact steady_trans | apply keeps_get, steady_refl |].
  intros s0. destruct (view s0).
  - apply keeps_bind; [exact steady_trans | apply keeps_driver_call |].
    intros _. apply keeps_ret, steady_refl.
  - apply keeps_raise, steady_refl.
Qed.

Section WithLibraries.

Variable FromString : bytes -> option Payload.
Variable b64decode : str -> option bytes.

Lemma keeps_fetch_payload self pid :
  keeps settled (fetch_payload FromString b64decode self pid).
Proof.
  unfold fetch_payload.
  apply keeps_bind; [exact settled_trans | apply keeps_get_connection |].
  intros conn. apply keeps_bind; [exact settled_trans | |].
  { apply keeps_weaken, keeps_ibm_db_prepare. }
  intros _. apply keeps_bind; [exact settled_trans | |].
  { apply keeps_weaken, keeps_execute_select. }
  intros [row |]; [| apply keeps_ret, settled_refl].
  destruct (b64decode (payload_data row)) as [b |]; [| apply keeps_raise, settled_refl].
  destruct (FromString b); [apply keeps_ret | apply keeps_raise]; apply settled_refl.
Qed.

Lemma keeps_decode_payload self p :
  keeps settled (decode_payload FromString b64decode self p).
Proof.
  unfold decode_payload.
  apply keeps_bind; [exact settled_trans | apply keeps_lift, settled_refl |].
  intros v. destruct (negb _); [apply keeps_ret, settled_refl |].
  apply keeps_bind; [exact settled_trans | apply keeps_lift, settled_refl |].
  intros pid. apply keeps_bind; [exact settled_trans | |].
  { apply keeps_try, keeps_fetch_payload. }
  intros [[x |] | e]; apply keeps_ret, settled_refl.
Qed.

(** [decode] of the relational codec reads: whatever the batch and whatever
    the driver does, the rows a statement sees, the committed rows and the
    open transaction are after the call what they were before. *)
Theorem rel_decode_changes_no_row self batch s :
  let s' := (decode FromString b64decode self batch s).2 in
  visible s' = visible s /\ committed s' = committed s /\ txn s' = txn s.
Proof.
  cbv zeta.
  destruct (decode FromString b64decode self batch s) as [r s'] eqn:E.
  unfold decode in E.
  apply (keeps_for_append settled _ settled_refl settled_trans
           (keeps_decode_payload self)) in E.
  destruct E as (Hc & Hv & Hx & _). cbn [snd]. auto.
Qed.

(** [decode] of the relational codec raises on ill-formed text only: on a
    batch whose payloads have a version tag and a body that are well-formed
    UTF-8, it returns a batch of the same length whatever the driver does,
    and each output is the input payload or a payload stored under its
    identifier. *)
Theorem rel_decode_never_raises_on_text self batch s :
  Forall (fun p => is_Ok (bytes_decode (metadata_get p CODEC_KEY)) = true
                   /\ is_Ok (bytes_decode (data p)) = true) batch ->
  exists outs s',
    decode FromString b64decode self batch s = (Ok outs, s')
    /\ Forall2 (fun p y =>
                  y = p
                  \/ exists row b,
                       In row (visible s) /\ bytes_decode (data p) = Ok (id row)
                       /\ b64decode (payload_data row) = Some b
                       /\ FromString b = Some y) batch outs.
Proof.
  intros Hall.
  destruct (rel_decode_total FromString b64decode self batch s Hall)
    as (outs & s' & E).
  exists outs, s'. split; [exact E |].
  unfold decode in E. revert s outs s' E Hall.
  induction batch as [| p batch IH]; intros s outs s' E Hall.
  - cbn in E. inversion E. constructor.
  - rewrite for_append_cons in E.
    destruct (decode_payload FromString b64decode self p s) as [[y | e] s1] eqn:E1;
      [| discriminate].
    destruct (for_append _ batch [] s1) as [[o | e] s2] eqn:E2; [| discriminate].
    inversion E; subst; clear E.
    inversion Hall as [| ? ? [Hv Hid] Hrest]; subst.
    constructor.
    + destruct (bytes_decode (metadata_get p CODEC_KEY)) as [v |] eqn:Ev; [| discriminate].
      destruct (bytes_decode (data p)) as [pid |] eqn:Eid; [| discriminate].
      destruct (decide (v = "v1")) as [-> | Hne].
      * rewrite (rel_decode_payload_token _ _ self p s pid Ev Eid) in E1.
        destruct (fetch_payload FromString b64decode self pid s)
          as [[[x |] | e] sf] eqn:Ef; inversion E1; subst; auto.
        right. apply fetch_payload_found in Ef as (row & b & Hin & <- & Hb & Hx).
        exists row, b. auto.
      * rewrite (rel_decode_payload_unrecognized _ _ self p s v Ev Hne) in E1.
        inversion E1; auto.
    + pose proof (keeps_decode_payload self p _ _ _ E1) as (_ & Hvis & _).
      eapply Forall2_impl; [eapply IH; eauto |].
      intros q z [-> | (row & b & Hin & Hrest')]; [now left |].
      right. exists row, b. rewrite <- Hvis. auto.
Qed.

End WithLibraries.
End MoreFrames.

(** ** Batches through the relational codec *)
Section RelationalBatches.

Import Relational.

Lemma env_kept_refl s : env_kept s s.
Proof. unfold env_kept. auto. Qed.

Lemma env_kept_trans s1 s2 s3 : env_kept s1 s2 -> env_kept s2 s3 -> env_kept s1 s3.
Proof. unfold env_kept. intros (?&?&?&?&?) (?&?&?&?&?). repeat split; congruence. Qed.

Lemma keeps_env_driver_call o : keeps env_kept (driver_call o).
Proof.
  intros s r s' H. unfold driver_call in H.
  destruct (faults s) as [| [] ?]; inversion H; subst; unfold env_kept; cbn; auto.
Qed.

Lemma keeps_env_bind_params n : keeps env_kept (bind_params n).
Proof.
  induction n as [| n IH]; cbn [bind_params].
  - apply keeps_ret, env_kept_refl.
  - apply keeps_bind; [exact env_kept_trans | apply keeps_env_driver_call | auto].
Qed.

Lemma keeps_env_prepare n : keeps env_kept (ibm_db_prepare n).
Proof.
  unfold ibm_db_prepare.
  apply keeps_bind; [exact env_kept_trans | apply keeps_env_driver_call |].
  intros _. apply keeps_env_bind_params.
Qed.

Lemma keeps_env_modify f :
  (forall s, env_kept s (f s)) -> keeps env_kept (modify f).
Proof. intros Hf s r s' H. inversion H; subst. apply Hf. Qed.

Lemma keeps_env_execute_insert row : keeps env_kept (execute_insert row).
Proof.
  unfold execute_insert.
  apply keeps_bind; [exact env_kept_trans | apply keeps_env_driver_call |].
  intros _. apply keeps_bind; [exact env_kept_trans | apply keeps_get, env_kept_refl |].
  intros s0. destruct (view s0) as [rows |]; [| apply keeps_raise, env_kept_refl].
  destruct (existsb _ rows); [apply keeps_raise, env_kept_refl |].
  apply keeps_env_modify. intros s. unfold env_kept; cbn; auto.
Qed.

Lemma keeps_env_execute_delete cond : keeps env_kept (execute_delete cond).
Proof.
  unfold execute_delete.
  apply keeps_bind; [exact env_kept_trans | apply keeps_env_driver_call |].
  intros _. apply keeps_bind; [exact env_kept_trans | apply keeps_get, env_kept_refl |].
  intros s0. destruct (view s0) as [rows |]; [| apply keeps_raise, env_kept_refl].
  apply keeps_bind; [exact env_kept_trans | |].
  { apply keeps_env_modify. intros s. unfold env_kept; cbn; auto. }
  intros _. apply keeps_bind; [exact env_kept_trans | apply keeps_env_driver_call |].
  intros _. apply keeps_ret, env_kept_refl.
Qed.

Lemma keeps_env_commit conn : keeps env_kept (ibm_db_commit conn).
Proof.
  unfold ibm_db_commit.
  apply keeps_bind; [exact env_kept_trans | apply keeps_env_driver_call |].
  intros _. apply keeps_env_modify. intros s.
  destruct (txn s); unfold env_kept; cbn; auto.
Qed.

Lemma keeps_env_rollback conn : keeps env_kept (ibm_db_rollback conn).
Proof.
  unfold ibm_db_rollback.
  apply keeps_bind; [exact env_kept_trans | apply keeps_env_driver_call |].
  intros _. apply keeps_env_modify. intros s. unfold env_kept; cbn; auto.
Qed.

Lemma keeps_env_create_table cfg : keeps env_kept (create_claim_check_table cfg).
Proof.
  unfold create_claim_check_table.
  apply keeps_bind; [exact env_kept_trans | |].
  { apply keeps_try. unfold ibm_db_connect.
    apply keeps_bind; [exact env_kept_trans | apply keeps_env_driver_call |].
    intros _. apply keeps_ret, env_kept_refl. }
  intros [conn | e]; [| apply keeps_raise, env_kept_refl].
  apply keeps_bind; [exact env_kept_trans | |].
  { apply keeps_try.
    apply keeps_bind; [exact env_kept_trans | apply keeps_env_driver_call |].
    intros _. apply keeps_bind;
      [exact env_kept_trans | apply keeps_try, keeps_env_driver_call |].
    intros _. apply keeps_bind;
      [exact env_kept_trans | apply keeps_try, keeps_env_driver_call |].
    intros _. apply keeps_bind; [exact env_kept_trans | apply keeps_env_driver_call |].
    intros _. apply keeps_env_modify. intros s.
    destruct (table s); unfold env_kept; cbn; auto. }
  intros [u | e]; [apply keeps_env_driver_call |].
  apply keeps_bind; [exact env_kept_trans | apply keeps_try, keeps_env_driver_call |].
  intros r2. apply keeps_bind; [exact env_kept_trans | apply keeps_env_driver_call |].
  intros _. apply keeps_raise, env_kept_refl.
Qed.

Lemma keeps_env_get_connection self : keeps env_kept (_get_connection self).
Proof.
  unfold _get_connection.
  apply keeps_bind; [exact env_kept_trans | apply keeps_get, env_kept_refl |].
  intros s0. destruct (_connection s0); [apply keeps_ret, env_kept_refl |].
  apply keeps_bind; [exact env_kept_trans | |].
  { apply keeps_try. unfold ibm_db_connect.
    apply keeps_bind; [exact env_kept_trans | |].
    { apply keeps_bind; [exact env_kept_trans | apply keeps_env_driver_call |].
      intros _. apply keeps_ret, env_kept_refl. }
    intros conn. apply keeps_bind; [exact env_kept_trans | |].
    { apply keeps_env_modify. intros s. unfold env_kept; cbn; auto. }
    intros _. apply keeps_bind; [exact env_kept_trans | apply keeps_get, env_kept_refl |].
    intros s1. apply keeps_bind; [exact env_kept_trans | |].
    { destruct (negb (_initialized s1)); [| apply keeps_ret, env_kept_refl].
      apply keeps_bind; [exact env_kept_trans | apply keeps_env_create_table |].
      intros _. apply keeps_env_modify. intros s. unfold env_kept; cbn; auto. }
    intros _. apply keeps_ret, env_kept_refl. }
  intros [conn | e]; [apply keeps_ret | apply keeps_raise]; apply env_kept_refl.
Qed.

Section WithLibraries.

Variable SerializeToString : Payload -> bytes.
Variable b64encode_str : bytes -> str.

Local Abbreviation encode_payload := (Relational.encode_payload SerializeToString b64encode_str).
Local Abbreviation encode := (Relational.encode SerializeToString b64encode_str).
Local Abbreviation new_row := (Relational.new_row b64encode_str).

Lemma keeps_env_insert_and_commit conn row :
  keeps env_kept (insert_and_commit conn row).
Proof.
  unfold insert_and_commit.
  apply keeps_bind; [exact env_kept_trans | apply keeps_env_prepare |].
  intros _. apply keeps_bind; [exact env_kept_trans | apply keeps_env_execute_insert |].
  intros _. apply keeps_env_commit.
Qed.

(** [encode_payload] draws one identifier and leaves the clock and the
    workflow context alone, whatever its outcome. *)
Lemma rel_encode_payload_env self p s r s' :
  encode_payload self p s = (r, s') ->
  now s' = now s /\ draws s' = S (draws s) /\ entropy s' = entropy s
  /\ workflow_info s' = workflow_info s /\ ticks s' = ticks s.
Proof.
  rewrite rel_encode_payload_steps. cbv zeta.
  set (s0 := set_draws (S (draws s)) s).
  assert (H0 : env_kept s0 s' ->
               now s' = now s /\ draws s' = S (draws s) /\ entropy s' = entropy s
               /\ workflow_info s' = workflow_info s /\ ticks s' = ticks s).
  { unfold env_kept. subst s0. cbn. tauto. }
  destruct (_get_connection self s0) as [[conn | e] s1] eqn:Ec.
  2: { intros H. inversion H; subst. apply H0.
       eapply keeps_env_get_connection; eauto. }
  apply keeps_env_get_connection in Ec.
  destruct (insert_and_commit conn _ s1) as [[u | e] s2] eqn:Ei.
  { intros H. inversion H; subst. apply H0.
    eapply env_kept_trans; [exact Ec |]. eapply keeps_env_insert_and_commit; eauto. }
  apply keeps_env_insert_and_commit in Ei.
  destruct (ibm_db_rollback conn s2) as [[u | e'] s3] eqn:Er;
    apply keeps_env_rollback in Er;
    intros H; inversion H; subst; apply H0; eauto using env_kept_trans.
Qed.

Lemma next_ids_S s s1 n :
  draws s1 = S (draws s) -> entropy s1 = entropy s ->
  next_ids s (S n) = uuid_str (entropy s (draws s)) :: next_ids s1 n.
Proof.
  intros Hd He. unfold next_ids. cbn [seq map].
  rewrite Nat.add_0_r. f_equal.
  rewrite <- seq_shift, map_map, Hd, He.
  apply map_ext. intros i. do 2 f_equal. lia.
Qed.

(** The clock value read for the first payload, then those read for the
    others once the clock has moved on. *)
Lemma next_readings_S s s1 n :
  now s1 = now s -> ticks s1 = ticks s ->
  next_readings s (S n) = now s :: next_readings (advance s1) n.
Proof.
  intros Hn Ht. unfold next_readings, advance. cbn [readings]. f_equal.
  rewrite Ht. destruct (ticks s) as [| d rest]; cbn; now rewrite ?Ht, Hn.
Qed.

(** What a batch that [encode] accepted has left behind: one row per
    payload, appended in the order of the batch under the identifiers
    drawn, which are pairwise distinct and were free; the expiry of each row
    counts from the clock value read for its payload. *)
Lemma rel_encode_batch_rows self batch : forall s outs s',
  encode self batch s = (Ok outs, s') ->
  let ids := next_ids s (List.length batch) in
  exists rows,
    visible s' = visible s ++ rows
    /\ map id rows = ids
    /\ Forall2 (fun p r => payload_data r = b64encode_str (SerializeToString p))
         batch rows
    /\ map expires_at rows
       = map (fun t => t + 3600 * ttl_hours self) (next_readings s (List.length batch))
    /\ outs = map (reference_token "v1") ids
    /\ NoDup ids
    /\ (forall pid r, In pid ids -> In r (visible s) -> id r <> pid)
    /\ (batch <> [] ->
        table s' = Some (visible s') /\ txn s' = None /\ is_Some (_connection s')).
Proof.
  induction batch as [| p batch IH]; intros s outs s' H; cbv zeta.
  - cbn in H. inversion H; subst. exists []. cbn.
    rewrite app_nil_r.
    split; [reflexivity |]. split; [reflexivity |]. split; [constructor |].
    split; [reflexivity |]. split; [reflexivity |]. split; [constructor |].
    split; [intros ? ? [] | congruence].
  - rewrite rel_encode_cons in H.
    destruct (encode_payload self p s) as [[tok | e] s1] eqn:E1; [| discriminate].
    destruct (encode self batch (advance s1)) as [[o | e] s2] eqn:E2; [| discriminate].
    inversion H; subst; clear H.
    pose proof (rel_encode_payload_env _ _ _ _ _ E1) as (Hn & Hd & He & Hw & Hk).
    apply rel_encode_payload_Ok in E1 as (-> & Ht & Hfree & Hx & Hc).
    cbv zeta in Ht, Hfree.
    set (pid := uuid_str (entropy s (draws s))) in *.
    set (row := new_row self pid (SerializeToString p) (set_draws (S (draws s)) s)) in *.
    destruct (advance_fields s1) as (Hac & _ & Hat & Hax & _ & _ & Had & Hae & _).
    assert (Hv1 : visible (advance s1) = visible s ++ [row]).
    { unfold visible, view. rewrite Hax, Hat, Hx, Ht. reflexivity. }
    specialize (IH (advance s1) _ _ E2). cbv zeta in IH.
    destruct IH as (rows & Hv & Hids & Hdata & Hexp & Ho & Hnd & Hfr & Hne).
    assert (Hd' : draws (advance s1) = S (draws s)) by congruence.
    assert (He' : entropy (advance s1) = entropy s) by congruence.
    cbn [List.length].
    rewrite (next_ids_S s (advance s1) _ Hd' He'), (next_readings_S s s1 _ Hn Hk).
    fold pid.
    assert (Hnotin : ~ In pid (next_ids (advance s1) (List.length batch))).
    { intros Hin. apply (Hfr pid row Hin); [| reflexivity].
      rewrite Hv1. apply in_or_app. right. now left. }
    exists (row :: rows).
    split; [rewrite Hv, Hv1, <- app_assoc; reflexivity |].
    split; [cbn [map]; now rewrite Hids |].
    split; [constructor; [reflexivity | exact Hdata] |].
    split; [cbn [map]; now rewrite Hexp |].
    split; [cbn [map]; now rewrite Ho |].
    split; [apply NoDup_cons_2; [now rewrite list_elem_of_In | exact Hnd] |].
    split.
    { intros i r [<- | Hin] Hr; [now apply Hfree |].
      eapply Hfr; [exact Hin |]. rewrite Hv1. apply in_or_app. now left. }
    intros _. destruct batch as [| q batch].
    + cbn in E2. inversion E2; subst.
      rewrite Hat, Hax, Hac, Hv1. auto.
    + apply Hne. discriminate.
Qed.

End WithLibraries.
End RelationalBatches.

Section RelationalBatchTheorems.

Import Relational.

Variable SerializeToString : Payload -> bytes.
Variable FromString : bytes -> option Payload.
Variable b64encode_str : bytes -> str.
Variable b64decode : str -> option bytes.

Hypothesis FromString_SerializeToString :
  forall p, FromString (SerializeToString p) = Some p.
Hypothesis b64decode_b64encode :
  forall b, b64decode (b64encode_str b) = Some b.

Local Abbreviation encode := (Relational.encode SerializeToString b64encode_str).
Local Abbreviation new_row := (Relational.new_row b64encode_str).
Local Abbreviation fetch_payload := (Relational.fetch_payload FromString b64decode).
Local Abbreviation decode_payload := (Relational.decode_payload FromString b64decode).
Local Abbreviation decode := (Relational.decode FromString b64decode).

(** [encode] of the relational codec returns a batch of tokens only when
    every payload sits in a row of its own: the rows were appended in the
    order of the batch, each holds the base64 text of its payload, each
    token names its row, and the identifiers are pairwise distinct and were
    free before.  The clock is read afresh for every payload: each row
    expires [ttl_hours] hours after the clock value read for its payload.
    After a non-empty batch nothing is left uncommitted. *)
Theorem rel_encode_batch_one_row_each self batch s outs s' :
  encode self batch s = (Ok outs, s') ->
  exists rows,
    visible s' = visible s ++ rows
    /\ Forall2 (fun p r => payload_data r = b64encode_str (SerializeToString p))
         batch rows
    /\ map expires_at rows
       = map (fun t => t + 3600 * ttl_hours self) (next_readings s (List.length batch))
    /\ outs = map (fun r => reference_token "v1" (id r)) rows
    /\ NoDup (map id rows)
    /\ (forall r r0, In r rows -> In r0 (visible s) -> id r0 <> id r)
    /\ (batch <> [] -> committed s' = visible s' /\ txn s' = None).
Proof.
  intros H.
  apply rel_encode_batch_rows in H
    as (rows & Hv & Hids & Hdata & Hexp & Ho & Hnd & Hfr & Hne).
  exists rows. split; [exact Hv |]. split; [exact Hdata |]. split; [exact Hexp |].
  split; [now rewrite <- (map_map id (reference_token "v1")), Hids |].
  split; [now rewrite Hids |].
  split.
  - intros r r0 Hr Hr0. apply Hfr; [| exact Hr0].
    rewrite <- Hids. now apply in_map.
  - intros Hb. destruct (Hne Hb) as (Ht & Hx & _).
    unfold committed. rewrite Ht. auto.
Qed.

Lemma next_ids_text s n :
  Forall (fun pid => bytes_decode (str_encode pid) = Ok pid) (next_ids s n).
Proof.
  unfold next_ids. apply Forall_forall. intros pid Hin.
  apply list_elem_of_In, in_map_iff in Hin as (i & <- & _). apply bytes_decode_uuid.
Qed.

(** Each of the rows appended under fresh, pairwise distinct identifiers is
    the first row with its identifier. *)
Lemma find_fresh_rows : forall (rows V : list Row),
  NoDup (map id rows) ->
  (forall r r0, In r rows -> In r0 V -> id r0 <> id r) ->
  Forall (fun r => find (fun x => bool_decide (id x = id r)) (V ++ rows) = Some r) rows.
Proof.
  induction rows as [| r rows IH]; intros V Hnd Hfr; [constructor |].
  cbn [map] in Hnd. apply NoDup_cons in Hnd as [Hni Hnd].
  rewrite list_elem_of_In in Hni.
  constructor.
  - clear IH. induction V as [| r0 V IHV]; cbn.
    + now rewrite bool_decide_eq_true_2.
    + rewrite bool_decide_eq_false_2.
      * apply IHV. intros r1 r2 Hr1 Hr2. apply Hfr; [exact Hr1 | now right].
      * apply Hfr; now left.
  - specialize (IH (V ++ [r]) Hnd).
    rewrite <- app_assoc in IH. cbn [app] in IH. apply IH.
    intros r1 r0 Hr1 Hr0. apply in_app_or in Hr0 as [Hr0 | [<- | []]].
    + apply Hfr; [now right | exact Hr0].
    + intros Heq. apply Hni. rewrite Heq. now apply in_map.
Qed.

Lemma Forall2_with_Forall {A B} (P : A -> Prop) (Q : A -> B -> Prop) l k :
  Forall P l -> Forall2 Q l k -> Forall2 (fun x y => P x /\ Q x y) l k.
Proof.
  intros HP HQ. induction HQ as [| x y l k Hxy HQ IH]; [constructor |].
  apply Forall_cons in HP as [Hx HP]. constructor; auto.
Qed.

(** With a store that answers, the [try] block of [decode] returns what the
    first row with the identifier holds, whether or not the codec object
    has connected before. *)
Lemma fetch_payload_answers self pid s rows :
  faults s = [] -> view s = Some rows ->
  exists s',
    settled s s' /\ faults s' = [] /\ view s' = Some rows
    /\ fetch_payload self pid s =
       match find (fun x => bool_decide (id x = pid)) rows with
       | Some row =>
           match b64decode (payload_data row) with
           | None => (Err BinasciiError, s')
           | Some payload_bytes =>
               match FromString payload_bytes with
               | None => (Err DecodeError, s')
               | Some new_payload => (Ok (Some new_payload), s')
               end
           end
       | None => (Ok None, s')
       end.
Proof.
  intros Hq Hv.
  destruct (get_connection_quiet self s Hq) as (conn & s1 & Ec & Hs & Hc & Hq1).
  assert (Hv1 : view s1 = Some rows).
  { destruct Hs as (_ & _ & _ & Hview & _). auto. }
  destruct (fetch_payload_quiet FromString b64decode self pid s1 conn rows Hc Hq1 Hv1)
    as (s2 & H12 & E).
  exists s2. split; [eapply settled_trans; [exact Hs | now apply steady_settled] |].
  split; [eapply steady_quiet; eauto |].
  split; [now rewrite (steady_view _ _ H12) |].
  rewrite <- E. unfold Relational.fetch_payload.
  rewrite (bind_Ok _ _ _ _ _ Ec).
  assert (Eg : _get_connection self s1 = (Ok conn, s1)).
  { unfold _get_connection. unfold bind at 1, get at 1. now rewrite Hc. }
  now rewrite (bind_Ok _ _ _ _ _ Eg).
Qed.

(** A batch of tokens whose rows are in the table is decoded to the stored
    payloads when the store answers. *)
Lemma rel_decode_resolves self L : forall toks ps s,
  faults s = [] -> view s = Some L ->
  Forall2 (fun tok p =>
             exists pid row,
               bytes_decode (metadata_get tok CODEC_KEY) = Ok "v1"
               /\ bytes_decode (data tok) = Ok pid
               /\ find (fun x => bool_decide (id x = pid)) L = Some row
               /\ payload_data row = b64encode_str (SerializeToString p)) toks ps ->
  exists s', decode self toks s = (Ok ps, s') /\ settled s s'.
Proof using FromString_SerializeToString b64decode_b64encode.
  unfold Relational.decode.
  induction toks as [| tok toks IH]; intros ps s Hq Hv Hall.
  - inversion Hall; subst. exists s. split; [reflexivity | apply settled_refl].
  - inversion Hall as [| ? p ? ps' (pid & row & Htag & Hid & Hfind & Hdata) Hrest];
      subst.
    rewrite for_append_cons.
    rewrite (rel_decode_payload_token _ _ self tok s pid Htag Hid).
    destruct (fetch_payload_answers self pid s L Hq Hv) as (s1 & H1 & Hq1 & Hv1 & ->).
    rewrite Hfind, Hdata, b64decode_b64encode, FromString_SerializeToString.
    destruct (IH ps' s1 Hq1 Hv1 Hrest) as (s2 & E2 & H2).
    rewrite E2. exists s2. split; [reflexivity | eapply settled_trans; eauto].
Qed.

(** The tokens of a batch that [encode] accepted name, each, the row of its
    payload. *)
Lemma rel_encode_batch_resolvable self batch s outs s1 :
  encode self batch s = (Ok outs, s1) ->
  Forall2 (fun tok p =>
             exists pid row,
               bytes_decode (metadata_get tok CODEC_KEY) = Ok "v1"
               /\ bytes_decode (data tok) = Ok pid
               /\ find (fun x => bool_decide (id x = pid)) (visible s1) = Some row
               /\ payload_data row = b64encode_str (SerializeToString p)) outs batch.
Proof.
  intros H.
  apply rel_encode_batch_rows in H
    as (rows & Hv & Hids & Hdata & _ & Ho & Hnd & Hfr & _).
  rewrite <- Hids in Ho, Hnd, Hfr. rewrite map_map in Ho.
  assert (Hfind : Forall (fun r => find (fun x => bool_decide (id x = id r)) (visible s1)
                                   = Some r
                                   /\ bytes_decode (str_encode (id r)) = Ok (id r)) rows).
  { rewrite Hv. apply Forall_and. split.
    - apply find_fresh_rows; [exact Hnd |].
      intros r r0 Hr Hr0. apply Hfr; [now apply in_map | exact Hr0].
    - pose proof (next_ids_text s (List.length batch)) as Ht.
      rewrite <- Hids in Ht. now apply Forall_fmap in Ht. }
  rewrite Ho. apply Forall2_fmap_l.
  apply Forall2_flip in Hdata.
  eapply Forall2_impl; [exact (Forall2_with_Forall _ _ _ _ Hfind Hdata) |].
  intros r p [[Hf Htext] Hd]. cbn beta in Hd.
  exists (id r), r.
  split; [now rewrite reference_token_tag |].
  split; [exact Htext |]. split; [exact Hf | exact Hd].
Qed.

(** Round trip of a batch through the relational codec: the tokens that
    [encode] returned for a batch are decoded to the batch, payload by
    payload and in order, by the codec object that encoded them, as long as
    the store answers; decoding changes no row. *)
Theorem rel_decode_encode_batch self batch s outs s1 :
  encode self batch s = (Ok outs, s1) ->
  faults s1 = [] ->
  exists s2, decode self outs s1 = (Ok batch, s2) /\ visible s2 = visible s1.
Proof using FromString_SerializeToString b64decode_b64encode.
  intros H Hq.
  destruct batch as [| p0 batch0].
  { cbn in H. inversion H; subst. exists s1. split; reflexivity. }
  pose proof (rel_encode_batch_resolvable _ _ _ _ _ H) as Hres.
  apply rel_encode_batch_rows in H as (rows & _ & _ & _ & _ & _ & _ & _ & Hne).
  destruct Hne as (Ht & Hx & _); [discriminate |].
  assert (Hview : view s1 = Some (visible s1)) by (unfold view; now rewrite Hx).
  destruct (rel_decode_resolves self (visible s1) outs _ s1 Hq Hview Hres)
    as (s2 & E & Hs).
  exists s2. split; [exact E |]. now destruct Hs as (_ & Hvis & _).
Qed.

(** The same round trip through a second codec object: a codec that was
    constructed with a configuration for the same database, and that has
    not connected yet, decodes the tokens that the first one returned to the
    batch, as long as the store answers. *)
Theorem rel_decode_by_second_object self self' batch s outs s1 :
  encode self batch s = (Ok outs, s1) ->
  get_connection_string (config self') = get_connection_string (config self) ->
  faults s1 = [] ->
  exists s2, decode self' outs (constructed s1) = (Ok batch, s2).
Proof using FromString_SerializeToString b64decode_b64encode.
  intros H _ Hq.
  destruct batch as [| p0 batch0].
  { cbn in H. inversion H; subst. eexists. reflexivity. }
  pose proof (rel_encode_batch_resolvable _ _ _ _ _ H) as Hres.
  apply rel_encode_batch_rows in H as (rows & _ & _ & _ & _ & _ & _ & _ & Hne).
  destruct Hne as (Ht & Hx & _); [discriminate |].
  assert (Hview : view (constructed s1) = Some (visible s1)) by exact Ht.
  destruct (rel_decode_resolves self' (visible s1) outs _ (constructed s1)
              Hq Hview Hres) as (s2 & E & _).
  exists s2. exact E.
Qed.

End RelationalBatchTheorems.

(** ** The two cleanup methods of the relational codec *)
Section RelationalDeletes.

Import Relational.

Lemma driver_call_run o s :
  faults s = [] -> driver_call o s = (Ok tt, set_trace (trace s ++ [o]) s).
Proof. intros Hq. unfold driver_call. now rewrite Hq. Qed.

Lemma driver_call_Err o s e s' :
  driver_call o s = (Err e, s') -> e = DriverError /\ steady s s'.
Proof.
  intros H. split; [| eapply keeps_driver_call; eauto].
  unfold driver_call in H. destruct (faults s) as [| [] ?]; now inversion H.
Qed.

Lemma bind_params_Err n : forall s e s',
  bind_params n s = (Err e, s') -> e = DriverError.
Proof.
  induction n as [| n IH]; intros s e s' H; cbn [bind_params] in H.
  - discriminate.
  - split_bind H u s1 E1; [eauto |].
    inversion H; subst. now apply driver_call_Err in E1.
Qed.

Lemma ibm_db_prepare_Err n s e s' :
  ibm_db_prepare n s = (Err e, s') -> e = DriverError.
Proof.
  unfold ibm_db_prepare. intros H.
  split_bind H u s1 E1; [eapply bind_params_Err; eauto |].
  inversion H; subst. now apply driver_call_Err in E1.
Qed.

Lemma execute_delete_run cond s rows :
  faults s = [] -> view s = Some rows ->
  execute_delete cond s
  = (Ok (List.length (List.filter cond rows)),
     set_trace ((trace s ++ [OpExecute]) ++ [OpNumRows])
       (set_txn (Some (List.filter (fun x => negb (cond x)) rows))
          (set_trace (trace s ++ [OpExecute]) s))).
Proof.
  intros Hq Hv. unfold execute_delete.
  rewrite (bind_Ok _ _ _ _ _ (driver_call_run OpExecute s Hq)).
  unfold bind at 1, get at 1.
  change (view (set_trace (trace s ++ [OpExecute]) s)) with (view s). rewrite Hv.
  unfold bind at 1, modify at 1.
  match goal with
  | |- bind _ _ ?s1 = _ => rewrite (bind_Ok _ _ _ _ _ (driver_call_run OpNumRows s1 Hq))
  end.
  reflexivity.
Qed.

Lemma ibm_db_commit_run conn s :
  faults s = [] ->
  ibm_db_commit conn s
  = (Ok tt,
     let s1 := set_trace (trace s ++ [OpCommit]) s in
     match txn s with
     | Some rows => set_txn None (set_table (Some rows) s1)
     | None => s1
     end).
Proof.
  intros Hq. unfold ibm_db_commit.
  rewrite (bind_Ok _ _ _ _ _ (driver_call_run OpCommit s Hq)).
  reflexivity.
Qed.

(** The statements that both cleanup methods run once the [DELETE] is
    prepared, when the store answers and the table exists. *)
Lemma delete_and_commit_run conn cond s rows :
  faults s = [] -> view s = Some rows ->
  exists s',
    (let* deleted_count := execute_delete cond in ibm_db_commit conn) s = (Ok tt, s')
    /\ table s' = Some (List.filter (fun x => negb (cond x)) rows)
    /\ txn s' = None
    /\ faults s' = []
    /\ _connection s' = _connection s
    /\ env_kept s s'.
Proof.
  intros Hq Hv.
  rewrite (bind_Ok _ _ _ _ _ (execute_delete_run cond s rows Hq Hv)).
  match goal with
  | |- context [ibm_db_commit conn ?s1] => rewrite (ibm_db_commit_run conn s1 Hq)
  end.
  eexists. split; [reflexivity |]. cbn.
  unfold env_kept. cbn. auto 10.
Qed.

(** When the table is missing the [DELETE] raises and the handler rolls
    back. *)
Lemma delete_missing_run conn cond s :
  faults s = [] -> view s = None ->
  exists s1 s',
    (let* deleted_count := execute_delete cond in ibm_db_commit conn) s
    = (Err DriverError, s1)
    /\ ibm_db_rollback conn s1 = (Ok tt, s')
    /\ table s' = None /\ txn s' = None /\ faults s' = []
    /\ _connection s' = _connection s /\ env_kept s s'.
Proof.
  intros Hq Hv. unfold execute_delete.
  assert (Hx : txn s = None /\ table s = None).
  { unfold view in Hv. destruct (txn s); [discriminate | auto]. }
  destruct Hx as [Hx Ht].
  assert (E : execute_delete cond s
              = (Err DriverError, set_trace (trace s ++ [OpExecute]) s)).
  { unfold execute_delete.
    rewrite (bind_Ok _ _ _ _ _ (driver_call_run OpExecute s Hq)).
    unfold bind at 1, get at 1.
    change (view (set_trace (trace s ++ [OpExecute]) s)) with (view s). now rewrite Hv. }
  exists (set_trace (trace s ++ [OpExecute]) s). eexists.
  split; [now rewrite (bind_Err _ _ _ _ _ E) |].
  split.
  { unfold ibm_db_rollback.
    rewrite (bind_Ok _ _ _ _ _
               (driver_call_run OpRollback (set_trace (trace s ++ [OpExecute]) s) Hq)).
    reflexivity. }
  cbn. rewrite Ht. unfold env_kept. cbn. auto 10.
Qed.

Lemma try_bind_Ok {S A B} (c : M S A) (k : A -> M S B) s a s1 :
  c s = (Ok a, s1) -> try (bind c k) s = try (k a) s1.
Proof. intros H. unfold try. now rewrite (bind_Ok _ _ _ _ _ H). Qed.

(** The tail shared by the two cleanup methods, with its handler. *)
Lemma delete_or_rollback_run conn cond s :
  faults s = [] ->
  exists s',
    (let* r := try (let* deleted_count := execute_delete cond in ibm_db_commit conn) in
     match r with
     | Err e => ibm_db_rollback conn
     | Ok _ => ret tt
     end) s = (Ok tt, s')
    /\ table s' = option_map (List.filter (fun x => negb (cond x))) (view s)
    /\ txn s' = None
    /\ faults s' = []
    /\ _connection s' = _connection s
    /\ env_kept s s'.
Proof.
  intros Hq. destruct (view s) as [rows |] eqn:Hv.
  - destruct (delete_and_commit_run conn cond s rows Hq Hv) as (s' & E & H).
    exists s'. split; [| exact H].
    now rewrite (bind_Ok _ _ _ _ _ (try_run _ _ _ _ E)).
  - destruct (delete_missing_run conn cond s Hq Hv) as (s1 & s' & E & Er & H).
    exists s'. split; [| exact H].
    now rewrite (bind_Ok _ _ _ _ _ (try_run _ _ _ _ E)).
Qed.

Lemma handler_bind_Ok {S A B C} (c : M S A) (k : A -> M S B)
  (h : result B -> M S C) s a s1 :
  c s = (Ok a, s1) -> bind (try (bind c k)) h s = bind (try (k a)) h s1.
Proof. intros H. unfold bind, try. now rewrite H. Qed.

Lemma handler_bind_Err {S A B C} (c : M S A) (k : A -> M S B)
  (h : result B -> M S C) s e s1 :
  c s = (Err e, s1) -> bind (try (bind c k)) h s = h (Err e) s1.
Proof. intros H. unfold bind, try. now rewrite H. Qed.

(** The statement that [cleanup_workflow_payloads] prepares. *)
Lemma prepare_cleanup_run wf run s :
  faults s = [] ->
  exists s',
    (if truthy run
     then let* _ := ibm_db_prepare 2 in
          ret (where_workflow_and_run wf (default EmptyString run))
     else let* _ := ibm_db_prepare 1 in ret (where_workflow wf)) s
    = (Ok (cleanup_condition wf run), s') /\ steady s s' /\ env_kept s s'.
Proof.
  intros Hq. unfold cleanup_condition. destruct (truthy run).
  - destruct (ibm_db_prepare_quiet 2 s Hq) as (s2 & E2 & H2).
    exists s2. rewrite (bind_Ok _ _ _ _ _ E2).
    split; [reflexivity |]. split; [exact H2 | eapply keeps_env_prepare; eauto].
  - destruct (ibm_db_prepare_quiet 1 s Hq) as (s2 & E2 & H2).
    exists s2. rewrite (bind_Ok _ _ _ _ _ E2).
    split; [reflexivity |]. split; [exact H2 | eapply keeps_env_prepare; eauto].
Qed.

Lemma settled_steady_rows s s1 s2 s' cond :
  settled s s1 -> steady s1 s2 ->
  table s' = option_map (List.filter (fun x => negb (cond x))) (view s2) ->
  txn s' = None ->
  visible s' = List.filter (fun x => negb (cond x)) (visible s)
  /\ (forall rows, view s = Some rows ->
                   table s' = Some (List.filter (fun x => negb (cond x)) rows)).
Proof.
  intros Hs H12 Ht Hx.
  rewrite (steady_view _ _ H12) in Ht.
  destruct Hs as (_ & Hvis & _ & Hview & _).
  split.
  - rewrite <- Hvis. unfold visible at 1. unfold view at 1. rewrite Hx, Ht.
    unfold visible. now destruct (view s1).
  - intros rows Hv. now rewrite Ht, (Hview rows Hv).
Qed.

(** [cleanup_workflow_payloads] when the store answers. *)
Lemma cleanup_workflow_payloads_run self wf run s :
  faults s = [] ->
  exists s',
    cleanup_workflow_payloads self wf run s = (Ok tt, s')
    /\ visible s' = List.filter (fun x => negb (cleanup_condition wf run x)) (visible s)
    /\ (forall rows, view s = Some rows ->
          table s' = Some (List.filter (fun x => negb (cleanup_condition wf run x)) rows))
    /\ txn s' = None
    /\ faults s' = []
    /\ is_Some (_connection s')
    /\ env_kept s s'.
Proof.
  intros Hq. unfold cleanup_workflow_payloads.
  destruct (get_connection_quiet self s Hq) as (conn & s1 & Ec & Hs & Hc & Hq1).
  rewrite (bind_Ok _ _ _ _ _ (try_run _ _ _ _ Ec)).
  destruct (prepare_cleanup_run wf run s1 Hq1) as (s2 & Ep & H2 & He2).
  rewrite (handler_bind_Ok _ _ _ _ _ _ Ep).
  destruct (delete_or_rollback_run conn (cleanup_condition wf run) s2
              (steady_quiet _ _ H2 Hq1)) as (s' & E & Ht & Hx & Hq' & Hc' & He).
  exists s'. split; [exact E |].
  destruct (settled_steady_rows s s1 s2 s' _ Hs H2 Ht Hx) as [Hv Hrows].
  split; [exact Hv |]. split; [exact Hrows |]. split; [exact Hx |].
  split; [exact Hq' |]. split.
  - rewrite Hc'. destruct H2 as (_ & _ & -> & _). rewrite Hc. eauto.
  - eapply env_kept_trans; [eapply keeps_env_get_connection; exact Ec |].
    eapply env_kept_trans; [exact He2 | exact He].
Qed.

(** [cleanup_expired_payloads] when the store answers. *)
Lemma cleanup_expired_payloads_run self s :
  faults s = [] ->
  exists s',
    cleanup_expired_payloads self s = (Ok tt, s')
    /\ visible s' = List.filter (fun x => negb (where_expired (now s) x)) (visible s)
    /\ (forall rows, view s = Some rows ->
          table s' = Some (List.filter (fun x => negb (where_expired (now s) x)) rows))
    /\ txn s' = None
    /\ faults s' = []
    /\ is_Some (_connection s')
    /\ env_kept s s'.
Proof.
  intros Hq. unfold cleanup_expired_payloads.
  destruct (get_connection_quiet self s Hq) as (conn & s1 & Ec & Hs & Hc & Hq1).
  rewrite (bind_Ok _ _ _ _ _ (try_run _ _ _ _ Ec)).
  rewrite (handler_bind_Ok get _ _ s1 s1 s1 eq_refl).
  assert (Hn : now s1 = now s) by (apply keeps_env_get_connection in Ec; apply Ec).
  rewrite Hn.
  destruct (ibm_db_prepare_quiet 1 s1 Hq1) as (s2 & Ep & H2).
  rewrite (handler_bind_Ok _ _ _ _ _ _ Ep).
  destruct (delete_or_rollback_run conn (where_expired (now s)) s2
              (steady_quiet _ _ H2 Hq1)) as (s' & E & Ht & Hx & Hq' & Hc' & He).
  exists s'. split; [exact E |].
  destruct (settled_steady_rows s s1 s2 s' _ Hs H2 Ht Hx) as [Hv Hrows].
  split; [exact Hv |]. split; [exact Hrows |]. split; [exact Hx |].
  split; [exact Hq' |]. split.
  - rewrite Hc'. destruct H2 as (_ & _ & -> & _). rewrite Hc. eauto.
  - eapply env_kept_trans; [eapply keeps_env_get_connection; exact Ec |].
    eapply env_kept_trans; [eapply keeps_env_prepare; exact Ep | exact He].
Qed.

(** The expiry sweep, when the store answers, deletes exactly the rows whose
    expiry lies before the current instant and commits; a row that expires
    at the current instant or later stays, whoever owns it. *)
Theorem cleanup_expired_deletes_expired_rows self s :
  faults s = [] ->
  exists s',
    cleanup_expired_payloads self s = (Ok tt, s')
    /\ (forall r, In r (visible s') <-> In r (visible s) /\ now s <= expires_at r)
    /\ committed s' = visible s'
    /\ txn s' = None.
Proof.
  intros Hq.
  destruct (cleanup_expired_payloads_run self s Hq)
    as (s' & E & Hv & Hrows & Hx & _).
  exists s'. split; [exact E |]. split; [| split; [| exact Hx]].
  - intros r. rewrite Hv, filter_In. unfold where_expired.
    rewrite negb_true_iff, Z.ltb_ge. reflexivity.
  - unfold committed. rewrite Hv. unfold visible.
    destruct (view s) as [rows |] eqn:Ev.
    + now rewrite (Hrows rows eq_refl).
    + cbn. destruct (table s') as [t |] eqn:Et; [| reflexivity].
      assert (Hvis : visible s' = t) by (unfold visible, view; now rewrite Hx, Et).
      rewrite Hv in Hvis. unfold visible in Hvis. rewrite Ev in Hvis. now subst t.
Qed.

End RelationalDeletes.

(** * The further properties on sample inputs *)

(** A dangling token and a plain payload through [decode] while the driver
    refuses the connection. *)
Lemma rel_decode_never_raises_on_text_witness :
  exists outs s',
    Relational.decode Wire.FromString Wire.b64decode Sample.rel_codec
      [Sample.dangling; Sample.plain] (Sample.rel_state [true]) = (Ok outs, s')
    /\ List.length outs = 2%nat.
Proof.
  destruct (rel_decode_never_raises_on_text Wire.FromString Wire.b64decode
              Sample.rel_codec [Sample.dangling; Sample.plain]
              (Sample.rel_state [true]))
    as (outs & s' & E & H2).
  - repeat (constructor; [split; vm_compute; reflexivity |]). constructor.
  - exists outs, s'. split; [exact E |].
    apply Forall2_length in H2. now rewrite <- H2.
Defined.

(** A batch of two payloads through [encode] of a fresh codec, with a clock
    that moves on by five seconds after the first payload: the second row
    expires five seconds after the first. *)
Lemma rel_encode_batch_one_row_each_witness :
  exists outs s' rows,
    Relational.encode Wire.SerializeToString Wire.b64encode_str Sample.rel_codec
      [Sample.plain; Sample.note]
      (Relational.set_ticks [5] (Sample.rel_state [])) = (Ok outs, s')
    /\ Relational.visible s' = rows
    /\ map Relational.expires_at rows = [1700086400; 1700086405]
    /\ NoDup (map Relational.id rows)
    /\ outs = map (fun r => reference_token "v1" (Relational.id r)) rows.
Proof.
  eexists _, _.
  destruct (rel_encode_batch_one_row_each Wire.SerializeToString Wire.b64encode_str
              Sample.rel_codec [Sample.plain; Sample.note]
              (Relational.set_ticks [5] (Sample.rel_state [])) _ _
              ltac:(vm_compute; reflexivity))
    as (rows & Hv & _ & Hexp & Ho & Hnd & _).
  exists rows. split; [vm_compute; reflexivity |].
  split; [exact Hv |]. split; [rewrite Hexp; vm_compute; reflexivity |].
  split; [exact Hnd | exact Ho].
Defined.

(** The same batch there and back. *)
Lemma rel_decode_encode_batch_witness :
  exists outs s1 s2,
    Relational.encode Wire.SerializeToString Wire.b64encode_str Sample.rel_codec
      [Sample.plain; Sample.note] (Sample.rel_state []) = (Ok outs, s1)
    /\ Relational.decode Wire.FromString Wire.b64decode Sample.rel_codec outs s1
       = (Ok [Sample.plain; Sample.note], s2).
Proof.
  eexists _, _.
  destruct (rel_decode_encode_batch
              Wire.SerializeToString Wire.FromString Wire.b64encode_str Wire.b64decode
              Wire_FromString_SerializeToString Wire_b64decode_b64encode
              Sample.rel_codec [Sample.plain; Sample.note]
              (Sample.rel_state []) _ _
              ltac:(vm_compute; reflexivity) ltac:(vm_compute; reflexivity))
    as (s2 & E & _).
  exists s2. split; [vm_compute; reflexivity | exact E].
Defined.

(** The same batch there, and back through a second codec object with the
    same configuration and another time to live. *)
Lemma rel_decode_by_second_object_witness :
  exists outs s1 s2,
    Relational.encode Wire.SerializeToString Wire.b64encode_str Sample.rel_codec
      [Sample.plain; Sample.note] (Sample.rel_state []) = (Ok outs, s1)
    /\ Relational.decode Wire.FromString Wire.b64decode Sample.rel_codec_week outs
         (Relational.constructed s1)
       = (Ok [Sample.plain; Sample.note], s2).
Proof.
  eexists _, _.
  destruct (rel_decode_by_second_object
              Wire.SerializeToString Wire.FromString Wire.b64encode_str Wire.b64decode
              Wire_FromString_SerializeToString Wire_b64decode_b64encode
              Sample.rel_codec Sample.rel_codec_week [Sample.plain; Sample.note]
              (Sample.rel_state []) _ _
              ltac:(vm_compute; reflexivity) eq_refl ltac:(vm_compute; reflexivity))
    as (s2 & E).
  exists s2. split; [vm_compute; reflexivity | exact E].
Defined.

(** The sweep on a table with one expired and one live row. *)
Lemma cleanup_expired_deletes_expired_rows_witness :
  exists s',
    Relational.cleanup_expired_payloads Sample.rel_codec Sample.rel_state_mixed
    = (Ok tt, s')
    /\ (In Sample.row_run1 (Relational.visible s'))
    /\ ~ In Sample.row_old (Relational.visible s').
Proof.
  destruct (cleanup_expired_deletes_expired_rows Sample.rel_codec
              Sample.rel_state_mixed eq_refl) as (s' & E & Hin & _).
  exists s'. split; [exact E |]. split.
  - apply Hin. split; [vm_compute; auto | vm_compute; discriminate].
  - intros H. apply Hin in H as [_ H]. vm_compute in H. apply H. reflexivity.
Defined.
